(** * Packet diagram layout (chunk 6542 of the documentation site build)

    A shallow embedding of the packet-diagram module bundled in
    [.next/server/chunks/6542.js]: the packet store ([pushWord], [getPacket],
    [clear]), the config resolver ([getConfig]), the block splitter
    ([getNextFittingBlock]), the layout driver ([populate]) and the geometry
    stage ([drawWord], [draw]).

    Numbers.  Bit indices, row indices and pixel sizes are JavaScript numbers
    holding integers; they are modelled as [Z] (exact as long as the values
    stay in the safe-integer range, which is where the parser and the config
    schema keep them).  Text anchors that the source computes with [/ 2] are
    modelled as [Q].

    Effects.  The module keeps its words in a module-level variable that
    [pushWord] mutates and [clear] replaces; a thrown [Error] leaves the
    mutations made so far in place.  This is modelled by explicit state
    passing: a computation maps a store to an [outcome] that carries the
    store it ends in, whether it returned or threw. *)

From Stdlib Require Import String ZArith List Bool Lia QArith.
Import ListNotations.
Local Open Scope string_scope.
Local Open Scope list_scope.
Local Open Scope Z_scope.

(** ** Data model *)

(** A block as the parser hands it over: [{start, end?, label}]. *)
Record PacketBlock : Type := mkPacketBlock {
  start : Z;
  end_ : option Z;
  label : string
}.

(** A block as it is stored in a word: [end] is always present. *)
Record Block : Type := mkBlock {
  bstart : Z;
  bend : Z;
  blabel : string
}.

Definition Word : Type := list Block.

(** The parsed diagram.  [populateCommonDb] forwards the three optional
    texts to the common diagram store of module 8554, which is disjoint from
    the packet store; that forwarding is not modelled. *)
Record Packet : Type := mkPacket {
  blocks : list PacketBlock;
  title : option string;
  accTitle : option string;
  accDescr : option string
}.

Record PacketData : Type := mkPacketData {
  packet : list Word
}.

(** Module-level state: [n = {packet: []}] is the template that is only ever
    cloned, [s] is the live store. *)
Record PacketDB : Type := mkPacketDB {
  defaultPacketData : PacketData;
  data : PacketData
}.

(** [var n = {packet: []}, s = structuredClone(n)]. *)
Definition initialDB : PacketDB :=
  {| defaultPacketData := {| packet := [] |};
     data := {| packet := [] |} |}.

(** The three [Error]s the module throws, with the numbers their messages
    interpolate:
    - [InvalidBlock r c]: "Packet block r - c is invalid. End must be greater
      than start."
    - [NotContiguous r c e]: "Packet block r - c is not contiguous. It should
      start from e."
    - [StartAfterEnd r c]: "Block start r is greater than block end c." *)
Inductive Error : Type :=
| InvalidBlock (r c : Z)
| NotContiguous (r c expected : Z)
| StartAfterEnd (r c : Z).

Inductive outcome (A : Type) : Type :=
| Return (a : A) (db : PacketDB)
| Throw (e : Error) (db : PacketDB)
| OutOfFuel.
Arguments Return {A} a db.
Arguments Throw {A} e db.
Arguments OutOfFuel {A}.

Definition M (A : Type) : Type := PacketDB -> outcome A.

Definition ret {A} (a : A) : M A := fun db => Return a db.

Definition bind {A B} (m : M A) (k : A -> M B) : M B :=
  fun db =>
    match m db with
    | Return a db' => k a db'
    | Throw e db' => Throw e db'
    | OutOfFuel => OutOfFuel
    end.

Definition throw {A} (e : Error) : M A := fun db => Throw e db.

Notation "x <- m ;; k" := (bind m (fun x => k))
  (at level 61, m at next level, right associativity).

(** The store an outcome ends in, if the run ended at all. *)
Definition finalDB {A} (o : outcome A) : option PacketDB :=
  match o with
  | Return _ db => Some db
  | Throw _ db => Some db
  | OutOfFuel => None
  end.

(** ** Config resolver *)

(** The resolved packet config. *)
Record PacketDiagramConfig : Type := mkConfig {
  rowHeight : Z;
  bitWidth : Z;
  bitsPerRow : Z;
  showBits : bool;
  paddingX : Z;
  paddingY : Z;
  useMaxWidth : bool
}.

(** The packet section of the site config: every key is optional. *)
Record PacketDiagramConfigInput : Type := mkConfigInput {
  rowHeight_in : option Z;
  bitWidth_in : option Z;
  bitsPerRow_in : option Z;
  showBits_in : option bool;
  paddingX_in : option Z;
  paddingY_in : option Z;
  useMaxWidth_in : option bool
}.

(** What the module imports from chunks that are not part of the sources:
    the built-in defaults ([vZ.packet] of module 8554), the packet section of
    the current site config ([iE().packet], possibly absent) and the
    clean-and-merge helper ([Rb] of module 5968), applied here to a single
    argument. *)
Record Imports : Type := mkImports {
  defaultConfig_packet : PacketDiagramConfig;
  siteConfig_packet : option PacketDiagramConfigInput;
  cleanAndMerge : PacketDiagramConfig -> PacketDiagramConfig
}.

(** One key of [{...d, ...u}]: the later spread wins when it has the key. *)
Definition spreadKey {A} (d : A) (u : option A) : A :=
  match u with
  | Some v => v
  | None => d
  end.

(** [{...d, ...u}] for the packet section. *)
Definition spread (d : PacketDiagramConfig)
    (u : option PacketDiagramConfigInput) : PacketDiagramConfig :=
  match u with
  | None => d
  | Some u =>
      {| rowHeight := spreadKey (rowHeight d) (rowHeight_in u);
         bitWidth := spreadKey (bitWidth d) (bitWidth_in u);
         bitsPerRow := spreadKey (bitsPerRow d) (bitsPerRow_in u);
         showBits := spreadKey (showBits d) (showBits_in u);
         paddingX := spreadKey (paddingX d) (paddingX_in u);
         paddingY := spreadKey (paddingY d) (paddingY_in u);
         useMaxWidth := spreadKey (useMaxWidth d) (useMaxWidth_in u) |}
  end.

Definition setPaddingY (t : PacketDiagramConfig) (v : Z) : PacketDiagramConfig :=
  {| rowHeight := rowHeight t;
     bitWidth := bitWidth t;
     bitsPerRow := bitsPerRow t;
     showBits := showBits t;
     paddingX := paddingX t;
     paddingY := v;
     useMaxWidth := useMaxWidth t |}.

(** [getConfig]: [let t = cleanAndMerge({...d, ...iE().packet});
    return t.showBits && (t.paddingY += 10), t]. *)
Definition getConfig (env : Imports) : PacketDiagramConfig :=
  let t := cleanAndMerge env
             (spread (defaultConfig_packet env) (siteConfig_packet env)) in
  if showBits t then setPaddingY t (paddingY t + 10) else t.

(** ** Packet store *)

(** [getPacket = () => s.packet]. *)
Definition getPacket (db : PacketDB) : list Word := packet (data db).

(** [pushWord = t => { t.length > 0 && s.packet.push(t) }]. *)
Definition pushWord (t : Word) : M unit :=
  fun db =>
    if (0 <? Z.of_nat (length t))
    then Return tt {| defaultPacketData := defaultPacketData db;
                      data := {| packet := getPacket db ++ [t] |} |}
    else Return tt db.

(** [clear = () => { commonClear(); s = structuredClone(n) }].  The call
    to [commonClear] resets the common diagram store of module 8554 and
    leaves the packet store alone. *)
Definition clear : M unit :=
  fun db =>
    Return tt {| defaultPacketData := defaultPacketData db;
                 data := defaultPacketData db |}.

(** ** Block splitter *)

(** [c ?? r]. *)
Definition endOrStart (r : Z) (c : option Z) : Z :=
  match c with
  | Some c => c
  | None => r
  end.

(** [getNextFittingBlock(t, e, a)]: default the end, reject [start > end],
    then either the whole block fits below [e * a] or it is cut there. *)
Definition getNextFittingBlock (t : PacketBlock) (row bitsPerRow : Z)
    : Error + (Block * option PacketBlock) :=
  let t_end := endOrStart (start t) (end_ t) in
  if start t >? t_end then inl (StartAfterEnd (start t) t_end)
  else if t_end + 1 <=? row * bitsPerRow
       then inr ({| bstart := start t; bend := t_end; blabel := label t |}, None)
       else inr ({| bstart := start t; bend := row * bitsPerRow - 1;
                    blabel := label t |},
                 Some {| start := row * bitsPerRow; end_ := Some t_end;
                         label := label t |}).

(** ** Layout driver *)

Definition maxPacketSize : Z := 10000.

(** The inner loop of [populate] for one input block:
    [for (...; a.length <= o + 1 && getPacket().length < 1e4;) { ... }].
    The loop condition is tested first; [fuel] bounds the number of times
    the body runs. *)
Fixpoint fitLoop (fuel : nat) (bitsPerRow : Z) (blk : PacketBlock)
    (word : Word) (row : Z) (db : PacketDB) : outcome (Word * Z) :=
  if (Z.of_nat (length word) <=? bitsPerRow + 1)
     && (Z.of_nat (length (getPacket db)) <? maxPacketSize)
  then
    match fuel with
    | O => OutOfFuel
    | S fuel' =>
        match getNextFittingBlock blk row bitsPerRow with
        | inl e => Throw e db
        | inr (t, rest) =>
            let word1 := word ++ [t] in
            let continue_with word2 row2 db2 :=
              match rest with
              | None => Return (word2, row2) db2
              | Some next => fitLoop fuel' bitsPerRow next word2 row2 db2
              end in
            if bend t + 1 =? row * bitsPerRow
            then match pushWord word1 db with
                 | Return _ db1 => continue_with [] (row + 1) db1
                 | Throw e db1 => Throw e db1
                 | OutOfFuel => OutOfFuel
                 end
            else continue_with word1 row db
        end
    end
  else Return (word, row) db.

(** Enough fuel for one run of the inner loop: every pass that goes round
    again has pushed a word (see [fitLoop_enough_fuel]). *)
Definition loopFuel (db : PacketDB) : nat :=
  Z.to_nat (maxPacketSize - Z.of_nat (length (getPacket db))).

(** [c && c < r]: an absent end and the end [0] are both falsy. *)
Definition invalidRange (r : Z) (c : option Z) : bool :=
  match c with
  | Some c => negb (c =? 0) && (c <? r)
  | None => false
  end.

(** The local variables of [populate]: [e] (last bit laid out), [a] (the row
    being filled) and [l] (its 1-based index). *)
Record Locals : Type := mkLocals {
  lastByte : Z;
  word : Word;
  row : Z
}.

(** The body of [for (let {start: r, end: c, label: n} of t.blocks)]. *)
Definition populateBlock (bitsPerRow : Z) (b : PacketBlock) (st : Locals)
    : M Locals :=
  let r := start b in
  let c := end_ b in
  if invalidRange r c then throw (InvalidBlock r (endOrStart r c))
  else if negb (r =? lastByte st + 1)
       then throw (NotContiguous r (endOrStart r c) (lastByte st + 1))
       else fun db =>
              match fitLoop (loopFuel db) bitsPerRow b (word st) (row st) db with
              | Return (a, l) db' =>
                  Return {| lastByte := endOrStart r c; word := a; row := l |} db'
              | Throw e db' => Throw e db'
              | OutOfFuel => OutOfFuel
              end.

Fixpoint populateBlocks (bitsPerRow : Z) (bs : list PacketBlock) (st : Locals)
    : M Locals :=
  match bs with
  | [] => ret st
  | b :: bs' =>
      st' <- populateBlock bitsPerRow b st ;;
      populateBlocks bitsPerRow bs' st'
  end.

(** [let e = -1, a = [], l = 1]. *)
Definition locals0 : Locals := {| lastByte := -1; word := []; row := 1 |}.

(** [populate]: [let e = -1, a = [], l = 1, {bitsPerRow: o} = getConfig();
    for (...) {...}  pushWord(a)]. *)
Definition populate (env : Imports) (ast : Packet) : M unit :=
  let o := bitsPerRow (getConfig env) in
  st <- populateBlocks o (blocks ast) locals0 ;;
  pushWord (word st).

(** ** Geometry stage *)

Inductive TextContent : Type :=
| TextString (s : string)
| TextNumber (n : Z).

(** What [drawWord] appends to the row's group: a [rect] with its [x], [y],
    [width], [height] and class, or a [text] with its [x], [y], class,
    [dominant-baseline], [text-anchor] and content. *)
Inductive SvgElement : Type :=
| Rect (x y width height : Z) (cls : string)
| Text (x y : Q) (cls dominantBaseline textAnchor : string)
       (content : TextContent).

(** [z / 2] on numbers. *)
Definition half (z : Z) : Q := Qred (z # 2).

Definition plusHalf (z h : Z) : Q := Qred (inject_Z z + half h).

(** One pass of [for (let t of e)] in [drawWord], with [d] the row's [y].
    The remainder [%] takes the sign of the dividend, as [Z.rem] does; a
    [bitsPerRow] of zero, for which the source computes [NaN], is outside the
    model. *)
Definition drawBlock (cfg : PacketDiagramConfig) (wordY : Z) (t : Block)
    : list SvgElement :=
  let blockX := Z.rem (bstart t) (bitsPerRow cfg) * bitWidth cfg + 1 in
  let width := (bend t - bstart t + 1) * bitWidth cfg - paddingX cfg in
  [ Rect blockX wordY width (rowHeight cfg) "packetBlock";
    Text (plusHalf blockX width) (plusHalf wordY (rowHeight cfg))
         "packetLabel" "middle" "middle" (TextString (blabel t)) ]
  ++ (if negb (showBits cfg) then []
      else
        let isSingleBlock := bend t =? bstart t in
        let bitNumberY := wordY - 2 in
        [ Text (if isSingleBlock then plusHalf blockX width else inject_Z blockX)
               (inject_Z bitNumberY) "packetByte start" "auto"
               (if isSingleBlock then "middle" else "start")
               (TextNumber (bstart t)) ]
        ++ (if isSingleBlock then []
            else [ Text (inject_Z (blockX + width)) (inject_Z bitNumberY)
                        "packetByte end" "auto" "end"
                        (TextNumber (bend t)) ])).

(** [drawWord(svg, word, rowNumber, config)]: the content of the group it
    appends. *)
Definition drawWord (word : Word) (rowNumber : Z) (cfg : PacketDiagramConfig)
    : list SvgElement :=
  let wordY := rowNumber * (rowHeight cfg + paddingY cfg) + paddingY cfg in
  flat_map (drawBlock cfg wordY) word.

(** [for (let [t, e] of k.entries()) drawWord(svg, e, t, c)]. *)
Fixpoint drawWords (cfg : PacketDiagramConfig) (rowNumber : Z)
    (words : list Word) : list (list SvgElement) :=
  match words with
  | [] => []
  | w :: ws => drawWord w rowNumber cfg :: drawWords cfg (rowNumber + 1) ws
  end.

Record Drawing : Type := mkDrawing {
  svgWidth : Z;
  svgHeight : Z;
  groups : list (list SvgElement);
  titleText : SvgElement
}.

(** [draw]: the view box, one group per word and the title text.  The
    diagram title lives in the common store of module 8554 and is taken as
    an argument; it is falsy when empty. *)
Definition draw (env : Imports) (diagramTitle : string) (db : PacketDB)
    : Drawing :=
  let c := getConfig env in
  let k := getPacket db in
  let g := rowHeight c + paddingY c in
  let u := g * (Z.of_nat (length k) + 1)
           - (if (diagramTitle =? "")%string then rowHeight c else 0) in
  let f := bitWidth c * bitsPerRow c + 2 in
  {| svgWidth := f;
     svgHeight := u;
     groups := drawWords c 0 k;
     titleText := Text (half f) (Qred (inject_Z u - half g))
                       "packetTitle" "middle" "middle"
                       (TextString diagramTitle) |}.

(** ** Bit ranges, widths and valid input *)

(** The bits [lo, lo + 1, ..., hi] of an inclusive range (none if [hi < lo]). *)
Definition bitRange (lo hi : Z) : list Z :=
  map (fun i => lo + Z.of_nat i) (seq 0 (Z.to_nat (hi - lo + 1))).

Definition blockBits (b : Block) : list Z := bitRange (bstart b) (bend b).

Definition inputBits (b : PacketBlock) : list Z :=
  bitRange (start b) (endOrStart (start b) (end_ b)).

(** The same ranges with every bit tagged by the label of its field. *)
Definition labelled (l : string) (bits : list Z) : list (Z * string) :=
  map (fun i => (i, l)) bits.

Definition blockLabelledBits (b : Block) : list (Z * string) :=
  labelled (blabel b) (blockBits b).

Definition inputLabelledBits (b : PacketBlock) : list (Z * string) :=
  labelled (label b) (inputBits b).

(** [end - start + 1], and its sum over a word. *)
Definition blockWidth (b : Block) : Z := bend b - bstart b + 1.

Definition wordWidth (w : Word) : Z :=
  fold_right (fun b acc => blockWidth b + acc) 0 w.

(** Input that passes validation when the first block is expected at
    [expected]: every block starts where it is expected, its end (defaulted
    to its start) is not before its start, and the next block is expected
    right after that end. *)
Fixpoint contiguousFrom (expected : Z) (bs : list PacketBlock) : bool :=
  match bs with
  | [] => true
  | b :: bs' =>
      (start b =? expected)
      && (start b <=? endOrStart (start b) (end_ b))
      && contiguousFrom (endOrStart (start b) (end_ b) + 1) bs'
  end.

Definition validInput (bs : list PacketBlock) : bool := contiguousFrom 0 bs.

(** The start expected after the blocks [bs], when the first of them was
    expected at [expected]: the running [e + 1] of [populate]. *)
Fixpoint expectedNextStart (expected : Z) (bs : list PacketBlock) : Z :=
  match bs with
  | [] => expected
  | b :: bs' => expectedNextStart (endOrStart (start b) (end_ b) + 1) bs'
  end.

(** The number of bits a valid input describes. *)
Definition totalBits (bs : list PacketBlock) : Z := expectedNextStart 0 bs.

(** All sub-blocks in the store, in emission order. *)
Definition subBlocks (db : PacketDB) : list Block := concat (getPacket db).

(** The block splitter as the specification words it: default the end,
    reject [start > end], take [limit = rowIndex * bitsPerRow - 1], return
    the block alone when its end is at most [limit], else the part up to
    [limit] and the remainder from [limit + 1], both under the same label. *)
Definition splitSpec (block : PacketBlock) (rowIndex bitsPerRow : Z)
    : Error + (Block * option PacketBlock) :=
  let e := match end_ block with Some e => e | None => start block end in
  if e <? start block then inl (StartAfterEnd (start block) e)
  else
    let limit := rowIndex * bitsPerRow - 1 in
    if e <=? limit
    then inr (mkBlock (start block) e (label block), None)
    else inr (mkBlock (start block) limit (label block),
              Some (mkPacketBlock (limit + 1) (Some e) (label block))).

(** What holds of the store and the row being filled after a run. *)
Definition outcomeSat {A} (o : outcome A)
    (onReturn : A -> PacketDB -> Prop) (onThrow : Error -> PacketDB -> Prop)
    : Prop :=
  match o with
  | Return a db => onReturn a db
  | Throw e db => onThrow e db
  | OutOfFuel => False
  end.

(** The store holds at most [maxPacketSize] words, and the row being filled
    is empty once it holds that many. *)
Definition underCeiling (db : PacketDB) (a : Word) : Prop :=
  Z.of_nat (length (getPacket db)) <= maxPacketSize
  /\ (Z.of_nat (length (getPacket db)) = maxPacketSize -> a = []).

Definition nonEmptyWords (db : PacketDB) : Prop :=
  Forall (fun w : Word => w <> []) (getPacket db).

(** ** Vocabulary of the proofs *)

(** The condition of the inner loop. *)
Definition loopGuard (o : Z) (a : Word) (db : PacketDB) : bool :=
  (Z.of_nat (length a) <=? o + 1)
  && (Z.of_nat (length (getPacket db)) <? maxPacketSize).

(** The store after [s.packet.push(w)]. *)
Definition withWord (db : PacketDB) (w : Word) : PacketDB :=
  {| defaultPacketData := defaultPacketData db;
     data := {| packet := getPacket db ++ [w] |} |}.

(** [chain lo w next]: the blocks of [w] are non-empty and follow one
    another without gap from bit [lo] up to, but excluding, bit [next]. *)
Fixpoint chain (lo : Z) (w : Word) (next : Z) : Prop :=
  match w with
  | [] => lo = next
  | b :: w' => bstart b = lo /\ bstart b <= bend b /\ chain (bend b + 1) w' next
  end.

(** [rowsFrom o i p]: the words of [p] are the full rows [i], [i + 1], ... of
    width [o]. *)
Fixpoint rowsFrom (o i : Z) (p : list Word) : Prop :=
  match p with
  | [] => True
  | w :: p' => chain (i * o) w ((i + 1) * o) /\ rowsFrom o (i + 1) p'
  end.

(** The state of [populate] between two passes while nothing has been cut
    off: the store holds the full rows [0 .. l - 2], the row being filled
    holds the bits of row [l - 1] up to the last bit [e] laid out, and the
    labelled bits emitted so far are exactly [L]. *)
Definition laidOut (o : Z) (L : list (Z * string)) (e : Z) (a : Word) (l : Z)
    (db : PacketDB) : Prop :=
  Z.of_nat (length (getPacket db)) = l - 1
  /\ rowsFrom o 0 (getPacket db)
  /\ chain ((l - 1) * o) a (e + 1)
  /\ e + 1 < l * o
  /\ underCeiling db a
  /\ flat_map blockLabelledBits (subBlocks db ++ a) = L.

(** The state once the ceiling has cut the layout short: the store holds
    [maxPacketSize] full rows, the row being filled is empty, and the input
    has gone past the last stored bit. *)
Definition truncated (o : Z) (e : Z) (a : Word) (db : PacketDB) : Prop :=
  Z.of_nat (length (getPacket db)) = maxPacketSize
  /\ rowsFrom o 0 (getPacket db)
  /\ a = []
  /\ maxPacketSize * o <= e.

Definition layoutInv (o : Z) (L : list (Z * string)) (e : Z) (a : Word) (l : Z)
    (db : PacketDB) : Prop :=
  laidOut o L e a l db \/ truncated o e a db.

(** ** Sample configurations and inputs *)

Definition sampleDefaults : PacketDiagramConfig :=
  {| rowHeight := 32; bitWidth := 32; bitsPerRow := 32; showBits := true;
     paddingX := 5; paddingY := 5; useMaxWidth := true |}.

(** The defaults as they are, with a helper that returns its argument. *)
Definition envDefault : Imports :=
  {| defaultConfig_packet := sampleDefaults;
     siteConfig_packet := None;
     cleanAndMerge := fun c => c |}.

(** The defaults with the site config asking for rows of eight bits. *)
Definition envEight : Imports :=
  {| defaultConfig_packet := sampleDefaults;
     siteConfig_packet :=
       Some {| rowHeight_in := None; bitWidth_in := None;
               bitsPerRow_in := Some 8; showBits_in := None;
               paddingX_in := None; paddingY_in := None;
               useMaxWidth_in := None |};
     cleanAndMerge := fun c => c |}.

Definition diagram (bs : list PacketBlock) : Packet :=
  {| blocks := bs; title := None; accTitle := None; accDescr := None |}.

Definition field (s e : Z) (l : string) : PacketBlock :=
  {| start := s; end_ := Some e; label := l |}.

(** Ten bits in two fields. *)
Definition tenBits : list PacketBlock := [field 0 3 "A"; field 4 9 "B"].

(** Sixteen bits in two fields: exactly two rows of eight. *)
Definition sixteenBits : list PacketBlock := [field 0 3 "A"; field 4 15 "B"].

(** [{0-3 A}, {5-7 B}]: a gap at bit 4. *)
Definition gapAtFour : list PacketBlock := [field 0 3 "A"; field 5 7 "B"].

(** [{5-2 bad}]. *)
Definition endBeforeStart : list PacketBlock := [field 5 2 "bad"].

(** A gap at bit 4 followed, later, by a block that ends before it starts. *)
Definition gapThenBadRange : list PacketBlock :=
  [field 0 3 "A"; field 5 7 "B"; field 9 8 "C"].

(** [n] one-bit fields [0], [1], ..., [n - 1], written without an end. *)
Definition oneBitFields (n : Z) : list PacketBlock :=
  map (fun i => {| start := Z.of_nat i; end_ := None; label := "b" |})
      (seq 0 (Z.to_nat n)).

(** One field of 80008 bits: 10001 rows of eight. *)
Definition oneLongField : list PacketBlock := [field 0 80007 "A"].

(** How many sub-blocks and how many words a run that returned left in the
    store. *)
Definition storeSize (o : outcome unit) : option (Z * Z) :=
  match o with
  | Return _ db =>
      Some (Z.of_nat (length (subBlocks db)), Z.of_nat (length (getPacket db)))
  | _ => None
  end.

(** ** The specification's wording of the resolver and of the geometry *)

(** The value of one key after the shallow merge, in the specification's
    words: the user's value when the user config has the key, else the
    default. *)
Definition mergedKey {A} (defaults : PacketDiagramConfig)
    (user : option PacketDiagramConfigInput)
    (userKey : PacketDiagramConfigInput -> option A)
    (defaultKey : PacketDiagramConfig -> A) : A :=
  match user with
  | Some u =>
      match userKey u with
      | Some v => v
      | None => defaultKey defaults
      end
  | None => defaultKey defaults
  end.

(** The [x], [y], [width] and [height] of the rectangles among the elements
    drawn. *)
Definition rectGeometry (el : SvgElement) : list (Z * Z * Z * Z) :=
  match el with
  | Rect x y w h _ => [(x, y, w, h)]
  | Text _ _ _ _ _ _ => []
  end.

Definition rects (els : list SvgElement) : list (Z * Z * Z * Z) :=
  flat_map rectGeometry els.

(** The numeric annotations among the elements drawn, with their class. *)
Definition bitNumber (el : SvgElement) : list (string * Z) :=
  match el with
  | Text _ _ cls _ _ (TextNumber n) => [(cls, n)]
  | _ => []
  end.

Definition bitNumbers (els : list SvgElement) : list (string * Z) :=
  flat_map bitNumber els.

(** The rectangle of a sub-block in row [r] as the specification gives it. *)
Definition specGeometry (cfg : PacketDiagramConfig) (r : Z) (b : Block)
    : Z * Z * Z * Z :=
  ((bstart b mod bitsPerRow cfg) * bitWidth cfg,
   r * (rowHeight cfg + paddingY cfg) + paddingY cfg,
   (bend b - bstart b + 1) * bitWidth cfg - paddingX cfg,
   rowHeight cfg).

(** The same with the rectangle one pixel to the right. *)
Definition shiftedGeometry (cfg : PacketDiagramConfig) (r : Z) (b : Block)
    : Z * Z * Z * Z :=
  ((bstart b mod bitsPerRow cfg) * bitWidth cfg + 1,
   r * (rowHeight cfg + paddingY cfg) + paddingY cfg,
   (bend b - bstart b + 1) * bitWidth cfg - paddingX cfg,
   rowHeight cfg).

(** The bit indices annotated above a sub-block: its start, and its end when
    it spans more than one bit. *)
Definition specBitNumbers (b : Block) : list (string * Z) :=
  ("packetByte start", bstart b)
  :: (if bstart b <? bend b then [("packetByte end", bend b)] else []).

(** ** Vocabulary of the further properties *)

(** The store [db] with the words [pre] in front of its own. *)
Definition prependWords (pre : list Word) (db : PacketDB) : PacketDB :=
  {| defaultPacketData := defaultPacketData db;
     data := {| packet := pre ++ getPacket db |} |}.

(** An outcome with its final store changed by [f]. *)
Definition mapDB {A} (f : PacketDB -> PacketDB) (o : outcome A) : outcome A :=
  match o with
  | Return a db => Return a (f db)
  | Throw e db => Throw e (f db)
  | OutOfFuel => OutOfFuel
  end.

(** [rowsPartial o i p]: the words of [p] sit in the rows [i], [i + 1], ...
    of width [o]: each starts at the first bit of its row, is a gap-free
    chain of non-empty sub-blocks and ends at or before the last bit of the
    row. *)
Fixpoint rowsPartial (o i : Z) (p : list Word) : Prop :=
  match p with
  | [] => True
  | w :: p' =>
      (exists next, chain (i * o) w next /\ next <= (i + 1) * o)
      /\ rowsPartial o (i + 1) p'
  end.

(** The calls a client can make on the packet store. *)
Inductive Call : Type :=
| CallPushWord (w : Word)
| CallClear
| CallPopulate (env : Imports) (ast : Packet).

Definition runCall (c : Call) : M unit :=
  match c with
  | CallPushWord w => pushWord w
  | CallClear => clear
  | CallPopulate env ast => populate env ast
  end.

(** A sequence of calls, each made on the store the previous one left; a
    call that throws is caught by the client, which goes on with the next
    one. *)
Fixpoint runCalls (cs : list Call) (db : PacketDB) : option PacketDB :=
  match cs with
  | [] => Some db
  | c :: cs' =>
      match finalDB (runCall c db) with
      | Some db' => runCalls cs' db'
      | None => None
      end
  end.

(** The [y] of the numeric annotations among the elements drawn. *)
Definition bitNumberY (el : SvgElement) : list Q :=
  match el with
  | Text _ y _ _ _ (TextNumber _) => [y]
  | _ => []
  end.

Definition bitNumberYs (els : list SvgElement) : list Q :=
  flat_map bitNumberY els.

(** Three fields over two rows of eight, the second one split. *)
Definition threeFields : list PacketBlock :=
  [field 0 3 "A"; field 4 11 "B"; field 12 15 "C"].

(** The defaults with the site config asking for rows of [n] bits. *)
Definition envRows (n : Z) : Imports :=
  {| defaultConfig_packet := sampleDefaults;
     siteConfig_packet :=
       Some {| rowHeight_in := None; bitWidth_in := None;
               bitsPerRow_in := Some n; showBits_in := None;
               paddingX_in := None; paddingY_in := None;
               useMaxWidth_in := None |};
     cleanAndMerge := fun c => c |}.

(** The bits of the remainder the splitter hands back, if any. *)
Definition restBits (rest : option PacketBlock) : list Z :=
  match rest with
  | Some next => inputBits next
  | None => []
  end.

(** The string contents among the elements drawn: the labels. *)
Definition labelText (el : SvgElement) : list string :=
  match el with
  | Text _ _ _ _ _ (TextString l) => [l]
  | _ => []
  end.

Definition labelTexts (els : list SvgElement) : list string :=
  flat_map labelText els.

(** A store that holds [maxPacketSize] one-bit words. *)
Definition fullStore : PacketDB :=
  prependWords (repeat [mkBlock 0 0 "x"] (Z.to_nat maxPacketSize)) initialDB.

(** * Properties *)

(** ** The store and the splitter *)

Lemma pushWord_cons (b : Block) (w : Word) (db : PacketDB) :
  pushWord (b :: w) db
  = Return tt {| defaultPacketData := defaultPacketData db;
                 data := {| packet := getPacket db ++ [b :: w] |} |}.
Proof. reflexivity. Qed.

Lemma pushWord_snoc (w : Word) (b : Block) (db : PacketDB) :
  pushWord (w ++ [b]) db
  = Return tt {| defaultPacketData := defaultPacketData db;
                 data := {| packet := getPacket db ++ [w ++ [b]] |} |}.
Proof. destruct w; reflexivity. Qed.

Lemma pushWord_nil (db : PacketDB) : pushWord [] db = Return tt db.
Proof. reflexivity. Qed.

Lemma pushWord_returns (w : Word) (db : PacketDB) :
  pushWord w db
  = Return tt (if (0 <? Z.of_nat (length w))
               then {| defaultPacketData := defaultPacketData db;
                       data := {| packet := getPacket db ++ [w] |} |}
               else db).
Proof. unfold pushWord. destruct (0 <? Z.of_nat (length w)); reflexivity. Qed.

(** C2: the block splitter defaults an absent end to the start, rejects
    [start > end], and otherwise cuts at [limit = rowIndex * bitsPerRow - 1]:
    the block alone when its end is at most [limit], else the part
    [{start, limit, label}] with the remainder [{limit + 1, end, label}];
    the source function and the specification's wording agree on every
    input. *)
Theorem getNextFittingBlock_meets_spec (t : PacketBlock) (rowIndex o : Z) :
  getNextFittingBlock t rowIndex o = splitSpec t rowIndex o.
Proof.
  unfold getNextFittingBlock, splitSpec, endOrStart.
  destruct t as [r c n]; cbn [start end_ label].
  set (e := match c with Some e => e | None => r end).
  destruct (Z.gtb_spec r e) as [Hgt | Hle];
    destruct (Z.ltb_spec e r) as [Hlt | Hge]; try lia; try reflexivity.
  destruct (Z.leb_spec (e + 1) (rowIndex * o)) as [Hfit | Hcut];
    destruct (Z.leb_spec e (rowIndex * o - 1)) as [Hfit' | Hcut'];
    try lia; try reflexivity.
  replace (rowIndex * o - 1 + 1) with (rowIndex * o) by lia.
  reflexivity.
Qed.

(** The three cases of the splitter, on the defaulted end [e]. *)
Lemma getNextFittingBlock_throws (t : PacketBlock) (rowIndex o : Z) :
  endOrStart (start t) (end_ t) < start t ->
  getNextFittingBlock t rowIndex o
  = inl (StartAfterEnd (start t) (endOrStart (start t) (end_ t))).
Proof.
  intros H. unfold getNextFittingBlock.
  destruct (Z.gtb_spec (start t) (endOrStart (start t) (end_ t))); [reflexivity | lia].
Qed.

Lemma getNextFittingBlock_fits (t : PacketBlock) (rowIndex o : Z) :
  start t <= endOrStart (start t) (end_ t) ->
  endOrStart (start t) (end_ t) + 1 <= rowIndex * o ->
  getNextFittingBlock t rowIndex o
  = inr (mkBlock (start t) (endOrStart (start t) (end_ t)) (label t), None).
Proof.
  intros H1 H2. unfold getNextFittingBlock.
  destruct (Z.gtb_spec (start t) (endOrStart (start t) (end_ t))); [lia |].
  destruct (Z.leb_spec (endOrStart (start t) (end_ t) + 1) (rowIndex * o));
    [reflexivity | lia].
Qed.

Lemma getNextFittingBlock_cuts (t : PacketBlock) (rowIndex o : Z) :
  start t <= endOrStart (start t) (end_ t) ->
  rowIndex * o < endOrStart (start t) (end_ t) + 1 ->
  getNextFittingBlock t rowIndex o
  = inr (mkBlock (start t) (rowIndex * o - 1) (label t),
         Some (mkPacketBlock (rowIndex * o)
                 (Some (endOrStart (start t) (end_ t))) (label t))).
Proof.
  intros H1 H2. unfold getNextFittingBlock.
  destruct (Z.gtb_spec (start t) (endOrStart (start t) (end_ t))); [lia |].
  destruct (Z.leb_spec (endOrStart (start t) (end_ t) + 1) (rowIndex * o));
    [lia | reflexivity].
Qed.

(** ** One pass of the inner loop *)

Lemma fitLoop_exit fuel o blk a l db :
  loopGuard o a db = false ->
  fitLoop fuel o blk a l db = Return (a, l) db.
Proof.
  unfold loopGuard. intros H.
  destruct fuel; cbn [fitLoop]; rewrite H; reflexivity.
Qed.

Lemma fitLoop_no_fuel o blk a l db :
  loopGuard o a db = true ->
  fitLoop O o blk a l db = OutOfFuel.
Proof. unfold loopGuard. intros H. cbn [fitLoop]. rewrite H. reflexivity. Qed.

Lemma fitLoop_throw fuel o blk a l db :
  loopGuard o a db = true ->
  endOrStart (start blk) (end_ blk) < start blk ->
  fitLoop (S fuel) o blk a l db
  = Throw (StartAfterEnd (start blk) (endOrStart (start blk) (end_ blk))) db.
Proof.
  unfold loopGuard. intros H Hlt. cbn [fitLoop]. rewrite H.
  rewrite getNextFittingBlock_throws by assumption. reflexivity.
Qed.

Lemma fitLoop_fits_row_open fuel o blk a l db :
  loopGuard o a db = true ->
  start blk <= endOrStart (start blk) (end_ blk) ->
  endOrStart (start blk) (end_ blk) + 1 < l * o ->
  fitLoop (S fuel) o blk a l db
  = Return (a ++ [mkBlock (start blk) (endOrStart (start blk) (end_ blk))
                    (label blk)], l) db.
Proof.
  unfold loopGuard. intros H Hle Hlt. cbn [fitLoop]. rewrite H.
  rewrite getNextFittingBlock_fits by lia. cbn [bend].
  destruct (Z.eqb_spec (endOrStart (start blk) (end_ blk) + 1) (l * o));
    [lia | reflexivity].
Qed.

Lemma fitLoop_fits_row_full fuel o blk a l db :
  loopGuard o a db = true ->
  start blk <= endOrStart (start blk) (end_ blk) ->
  endOrStart (start blk) (end_ blk) + 1 = l * o ->
  fitLoop (S fuel) o blk a l db
  = Return ([], l + 1)
      (withWord db (a ++ [mkBlock (start blk)
                            (endOrStart (start blk) (end_ blk)) (label blk)])).
Proof.
  unfold loopGuard. intros H Hle Heq. cbn [fitLoop]. rewrite H.
  rewrite getNextFittingBlock_fits by lia. cbn [bend].
  destruct (Z.eqb_spec (endOrStart (start blk) (end_ blk) + 1) (l * o));
    [| lia].
  rewrite pushWord_snoc. reflexivity.
Qed.

Lemma fitLoop_cuts fuel o blk a l db :
  loopGuard o a db = true ->
  start blk <= endOrStart (start blk) (end_ blk) ->
  l * o < endOrStart (start blk) (end_ blk) + 1 ->
  fitLoop (S fuel) o blk a l db
  = fitLoop fuel o
      (mkPacketBlock (l * o) (Some (endOrStart (start blk) (end_ blk)))
         (label blk))
      [] (l + 1)
      (withWord db (a ++ [mkBlock (start blk) (l * o - 1) (label blk)])).
Proof.
  unfold loopGuard. intros H Hle Hlt. cbn [fitLoop]. rewrite H.
  rewrite getNextFittingBlock_cuts by lia. cbn [bend].
  destruct (Z.eqb_spec (l * o - 1 + 1) (l * o)); [| lia].
  rewrite pushWord_snoc. reflexivity.
Qed.

Lemma getPacket_withWord db w : getPacket (withWord db w) = getPacket db ++ [w].
Proof. reflexivity. Qed.

Lemma length_withWord db w :
  Z.of_nat (length (getPacket (withWord db w)))
  = Z.of_nat (length (getPacket db)) + 1.
Proof. rewrite getPacket_withWord, length_app. cbn [length]. lia. Qed.

Lemma loopGuard_true_iff o a db :
  loopGuard o a db = true
  <-> Z.of_nat (length a) <= o + 1
      /\ Z.of_nat (length (getPacket db)) < maxPacketSize.
Proof.
  unfold loopGuard. rewrite andb_true_iff, Z.leb_le, Z.ltb_lt. tauto.
Qed.

(** With fuel for every word the store can still take, the inner loop ends:
    it returns, or it throws on the very first pass because the block it was
    given starts after its end.  It keeps the template, keeps every stored
    word non-empty and, once a pass has run, leaves the store under the
    ceiling with an empty row whenever the ceiling is reached. *)
Lemma fitLoop_enough_fuel o fuel : forall blk a l db,
  maxPacketSize - Z.of_nat (length (getPacket db)) <= Z.of_nat fuel ->
  outcomeSat (fitLoop fuel o blk a l db)
    (fun r db' =>
       defaultPacketData db' = defaultPacketData db
       /\ (nonEmptyWords db -> nonEmptyWords db')
       /\ (underCeiling db a -> underCeiling db' (fst r)))
    (fun e db' =>
       db' = db
       /\ e = StartAfterEnd (start blk) (endOrStart (start blk) (end_ blk))
       /\ endOrStart (start blk) (end_ blk) < start blk).
Proof.
  induction fuel as [| fuel IH]; intros blk a l db Hfuel.
  - destruct (loopGuard o a db) eqn:G.
    + apply loopGuard_true_iff in G. lia.
    + rewrite fitLoop_exit by assumption. cbn. auto.
  - destruct (loopGuard o a db) eqn:G.
    2:{ rewrite fitLoop_exit by assumption. cbn. auto. }
    pose proof G as G'. apply loopGuard_true_iff in G'. destruct G' as [_ Hlen].
    destruct (Z.lt_ge_cases (endOrStart (start blk) (end_ blk)) (start blk))
      as [Hbad | Hok].
    { rewrite fitLoop_throw by assumption. cbn. auto. }
    destruct (Z.lt_trichotomy (endOrStart (start blk) (end_ blk) + 1) (l * o))
      as [Hopen | [Hfull | Hcut]].
    + rewrite fitLoop_fits_row_open by assumption. cbn.
      split; [reflexivity |]. split; [auto |].
      intros _. unfold underCeiling. split; lia.
    + rewrite fitLoop_fits_row_full by assumption. cbn.
      split; [reflexivity |]. split.
      * unfold nonEmptyWords. rewrite getPacket_withWord. intros Hne.
        apply Forall_app. split; [assumption |].
        constructor; [| constructor]. intros Habs.
        apply app_eq_nil in Habs. destruct Habs; discriminate.
      * intros _. unfold underCeiling. rewrite length_withWord.
        split; [lia | reflexivity].
    + rewrite fitLoop_cuts by assumption.
      match goal with
      | |- outcomeSat (fitLoop fuel o ?nb [] (l + 1) ?db1) _ _ =>
          specialize (IH nb [] (l + 1) db1)
      end.
      rewrite length_withWord in IH.
      assert (Hfuel' : maxPacketSize - (Z.of_nat (length (getPacket db)) + 1)
                       <= Z.of_nat fuel) by lia.
      specialize (IH Hfuel').
      destruct (fitLoop fuel o _ [] (l + 1) _) as [[a' l'] db' | e db' |];
        cbn in *; [| | assumption].
      * destruct IH as (Hn & Hne & Hceil).
        split; [exact Hn |]. split.
        -- intros H. apply Hne. unfold nonEmptyWords.
           rewrite getPacket_withWord. apply Forall_app. split; [assumption |].
           constructor; [| constructor]. intros Habs.
           apply app_eq_nil in Habs. destruct Habs; discriminate.
        -- intros _. apply Hceil. unfold underCeiling.
           rewrite length_withWord. split; [lia | reflexivity].
      * destruct IH as (_ & _ & Habs). lia.
Qed.

(** ** The driver on arbitrary input *)

Lemma invalidRange_true_iff r c :
  invalidRange r c = true <-> exists c', c = Some c' /\ c' <> 0 /\ c' < r.
Proof.
  unfold invalidRange. destruct c as [c' |].
  - rewrite andb_true_iff, negb_true_iff, Z.eqb_neq, Z.ltb_lt.
    split.
    + intros [H1 H2]. exists c'. auto.
    + intros (c'' & Heq & H1 & H2). inversion Heq. subst. auto.
  - split; [discriminate | intros (c' & Heq & _); discriminate].
Qed.

Lemma invalidRange_valid r c :
  r <= endOrStart r c -> invalidRange r c = false.
Proof.
  intros H. destruct (invalidRange r c) eqn:E; [| reflexivity].
  apply invalidRange_true_iff in E. destruct E as (c' & -> & _ & Hlt).
  cbn in H. lia.
Qed.

(** One input block: the three ways it can throw, each before the store is
    touched, and what a normal return keeps. *)
Lemma populateBlock_outcome o b st db :
  outcomeSat (populateBlock o b st db)
    (fun st' db' =>
       defaultPacketData db' = defaultPacketData db
       /\ (nonEmptyWords db -> nonEmptyWords db')
       /\ (underCeiling db (word st) -> underCeiling db' (word st'))
       /\ lastByte st' = endOrStart (start b) (end_ b)
       /\ invalidRange (start b) (end_ b) = false
       /\ start b = lastByte st + 1)
    (fun e db' =>
       db' = db
       /\ ((invalidRange (start b) (end_ b) = true
            /\ e = InvalidBlock (start b) (endOrStart (start b) (end_ b)))
           \/ (invalidRange (start b) (end_ b) = false
               /\ start b <> lastByte st + 1
               /\ e = NotContiguous (start b)
                        (endOrStart (start b) (end_ b)) (lastByte st + 1))
           \/ (invalidRange (start b) (end_ b) = false
               /\ start b = lastByte st + 1
               /\ endOrStart (start b) (end_ b) < start b
               /\ e = StartAfterEnd (start b)
                        (endOrStart (start b) (end_ b))))).
Proof.
  unfold populateBlock.
  destruct (invalidRange (start b) (end_ b)) eqn:Hrange.
  { cbn. auto. }
  destruct (Z.eqb_spec (start b) (lastByte st + 1)) as [Hstart | Hstart];
    cbn [negb].
  2:{ cbn. split; [reflexivity |]. right. left. auto. }
  pose proof (fitLoop_enough_fuel o (loopFuel db) b (word st) (row st) db)
    as Hloop.
  assert (Hfuel : maxPacketSize - Z.of_nat (length (getPacket db))
                  <= Z.of_nat (loopFuel db)) by (unfold loopFuel; lia).
  specialize (Hloop Hfuel).
  destruct (fitLoop (loopFuel db) o b (word st) (row st) db)
    as [[a l] db' | e db' |]; cbn in *; [| | assumption].
  - destruct Hloop as (Hn & Hne & Hceil). auto 10.
  - destruct Hloop as (-> & -> & Hlt). split; [reflexivity |].
    right. right. auto.
Qed.

Lemma populateBlocks_app o pre rest st db :
  populateBlocks o (pre ++ rest) st db
  = (st' <- populateBlocks o pre st ;; populateBlocks o rest st') db.
Proof.
  revert st db. induction pre as [| b pre IH]; intros st db.
  - reflexivity.
  - cbn [app populateBlocks]. unfold bind in *.
    destruct (populateBlock o b st db) as [st1 db1 | e db1 |];
      [| reflexivity | reflexivity].
    apply IH.
Qed.

(** The whole block list: the run always ends, keeps the template and the
    non-emptiness of the stored words, and stays under the ceiling. *)
Lemma populateBlocks_outcome o bs : forall st db,
  outcomeSat (populateBlocks o bs st db)
    (fun st' db' =>
       defaultPacketData db' = defaultPacketData db
       /\ (nonEmptyWords db -> nonEmptyWords db')
       /\ (underCeiling db (word st) -> underCeiling db' (word st')))
    (fun _ db' =>
       defaultPacketData db' = defaultPacketData db
       /\ (nonEmptyWords db -> nonEmptyWords db')
       /\ (underCeiling db (word st) ->
           Z.of_nat (length (getPacket db')) <= maxPacketSize)).
Proof.
  induction bs as [| b bs IH]; intros st db.
  - cbn. auto.
  - cbn [populateBlocks]. unfold bind.
    pose proof (populateBlock_outcome o b st db) as Hb.
    destruct (populateBlock o b st db) as [st1 db1 | e db1 |];
      cbn in Hb; [| | contradiction].
    + destruct Hb as (Hn & Hne & Hceil & _).
      specialize (IH st1 db1).
      destruct (populateBlocks o bs st1 db1) as [st2 db2 | e db2 |];
        cbn in *; [| | assumption].
      * destruct IH as (Hn' & Hne' & Hceil').
        split; [congruence |]. auto.
      * destruct IH as (Hn' & Hne' & Hceil').
        split; [congruence |]. auto.
    + destruct Hb as (-> & _). cbn.
      split; [reflexivity |]. split; [auto |].
      intros [H _]. exact H.
Qed.

Lemma populate_outcome env ast db :
  outcomeSat (populate env ast db)
    (fun _ db' =>
       defaultPacketData db' = defaultPacketData db
       /\ (nonEmptyWords db -> nonEmptyWords db')
       /\ (Z.of_nat (length (getPacket db)) <= maxPacketSize ->
           Z.of_nat (length (getPacket db')) <= maxPacketSize))
    (fun _ db' =>
       defaultPacketData db' = defaultPacketData db
       /\ (nonEmptyWords db -> nonEmptyWords db')
       /\ (Z.of_nat (length (getPacket db)) <= maxPacketSize ->
           Z.of_nat (length (getPacket db')) <= maxPacketSize)).
Proof.
  unfold populate, bind.
  pose proof (populateBlocks_outcome (bitsPerRow (getConfig env)) (blocks ast)
                {| lastByte := -1; word := []; row := 1 |} db) as H.
  destruct (populateBlocks _ _ _ db) as [st db1 | e db1 |];
    cbn in H; [| | contradiction].
  - destruct H as (Hn & Hne & Hceil).
    rewrite pushWord_returns. cbn [outcomeSat].
    destruct (Z.ltb_spec 0 (Z.of_nat (length (word st)))) as [Hpos | Hzero].
    + split; [exact Hn |]. split.
      * intros H. specialize (Hne H). unfold nonEmptyWords in *.
        cbn. apply Forall_app. split; [exact Hne |].
        constructor; [| constructor]. intros Hnil.
        rewrite Hnil in Hpos. cbn in Hpos. lia.
      * intros H.
        assert (Hc : underCeiling db1 (word st))
          by (apply Hceil; split; [exact H | reflexivity]).
        destruct Hc as [Hle Hfull].
        fold (withWord db1 (word st)). rewrite length_withWord.
        destruct (Z.eq_dec (Z.of_nat (length (getPacket db1))) maxPacketSize)
          as [Heq | Hneq]; [| lia].
        rewrite (Hfull Heq) in Hpos. cbn in Hpos. lia.
    + split; [exact Hn |]. split; [exact Hne |].
      intros H. apply Hceil. split; [exact H | reflexivity].
  - cbn. destruct H as (Hn & Hne & Hceil).
    split; [exact Hn |]. split; [exact Hne |].
    intros H. apply Hceil. split; [exact H | reflexivity].
Qed.

(** [populate] is total: the fuel handed to the inner loop never runs out. *)
Lemma populate_terminates env ast db : populate env ast db <> OutOfFuel.
Proof.
  pose proof (populate_outcome env ast db) as H.
  destruct (populate env ast db); cbn in H; [discriminate | discriminate |].
  contradiction.
Qed.

(** ** Bit ranges *)

Lemma bitRange_shift (n : nat) : forall (k : nat) (lo : Z),
  map (fun i => lo + Z.of_nat i) (seq k n)
  = map (fun i => lo + Z.of_nat k + Z.of_nat i) (seq 0 n).
Proof.
  induction n as [| n IH]; intros k lo.
  - reflexivity.
  - cbn [seq map]. f_equal; [lia |].
    rewrite (IH (S k) lo), (IH 1%nat (lo + Z.of_nat k)).
    apply map_ext. intros i. lia.
Qed.

Lemma bitRange_split (lo mid hi : Z) :
  lo <= mid + 1 -> mid <= hi ->
  bitRange lo hi = bitRange lo mid ++ bitRange (mid + 1) hi.
Proof.
  intros H1 H2. unfold bitRange.
  replace (Z.to_nat (hi - lo + 1))
    with (Z.to_nat (mid - lo + 1) + Z.to_nat (hi - (mid + 1) + 1))%nat by lia.
  rewrite seq_app, map_app. f_equal.
  rewrite bitRange_shift. cbn [Nat.add].
  apply map_ext. intros i. lia.
Qed.

Lemma bitRange_empty (lo hi : Z) : hi < lo -> bitRange lo hi = [].
Proof.
  intros H. unfold bitRange.
  replace (Z.to_nat (hi - lo + 1)) with 0%nat by lia. reflexivity.
Qed.

Lemma length_bitRange (lo hi : Z) :
  length (bitRange lo hi) = Z.to_nat (hi - lo + 1).
Proof. unfold bitRange. rewrite length_map, length_seq. reflexivity. Qed.

Lemma labelled_app l xs ys : labelled l (xs ++ ys) = labelled l xs ++ labelled l ys.
Proof. apply map_app. Qed.

Lemma map_fst_labelled l xs : map fst (labelled l xs) = xs.
Proof.
  unfold labelled. rewrite map_map. cbn [fst]. apply map_id.
Qed.

Lemma map_fst_blockLabelledBits (bs : list Block) :
  map fst (flat_map blockLabelledBits bs) = flat_map blockBits bs.
Proof.
  induction bs as [| b bs IH]; [reflexivity |].
  cbn [flat_map]. rewrite map_app, IH.
  unfold blockLabelledBits. rewrite map_fst_labelled. reflexivity.
Qed.

Lemma map_fst_inputLabelledBits (bs : list PacketBlock) :
  map fst (flat_map inputLabelledBits bs) = flat_map inputBits bs.
Proof.
  induction bs as [| b bs IH]; [reflexivity |].
  cbn [flat_map]. rewrite map_app, IH.
  unfold inputLabelledBits. rewrite map_fst_labelled. reflexivity.
Qed.

(** ** Rows as chains of sub-blocks *)

Lemma chain_app lo w mid w' next :
  chain lo w mid -> chain mid w' next -> chain lo (w ++ w') next.
Proof.
  revert lo. induction w as [| b w IH]; intros lo Hw Hw'; cbn in *.
  - subst. exact Hw'.
  - destruct Hw as (H1 & H2 & H3). auto.
Qed.

Lemma chain_snoc lo w s e n :
  chain lo w s -> s <= e -> chain lo (w ++ [mkBlock s e n]) (e + 1).
Proof.
  intros Hw Hle. apply (chain_app lo w s); [exact Hw |].
  cbn. auto.
Qed.

Lemma chain_length lo w next :
  chain lo w next -> Z.of_nat (length w) <= next - lo.
Proof.
  revert lo. induction w as [| b w IH]; intros lo H; cbn [chain length] in *.
  - lia.
  - destruct H as (H1 & H2 & H3). specialize (IH _ H3). lia.
Qed.

Lemma chain_width lo w next : chain lo w next -> wordWidth w = next - lo.
Proof.
  revert lo. induction w as [| b w IH]; intros lo H; cbn [chain wordWidth fold_right] in *.
  - lia.
  - destruct H as (H1 & H2 & H3). specialize (IH _ H3).
    unfold wordWidth in IH. rewrite IH. unfold blockWidth. lia.
Qed.

Lemma chain_bits lo w next :
  chain lo w next -> flat_map blockBits w = bitRange lo (next - 1).
Proof.
  revert lo. induction w as [| b w IH]; intros lo H; cbn [chain flat_map] in *.
  - subst. symmetry. apply bitRange_empty. lia.
  - destruct H as (H1 & H2 & H3).
    pose proof (chain_length _ _ _ H3) as Hlen.
    rewrite (IH _ H3). unfold blockBits. subst lo.
    symmetry. apply bitRange_split; lia.
Qed.

Lemma chain_nil lo w : chain lo w lo -> w = [].
Proof.
  intros H. apply chain_length in H.
  destruct w; [reflexivity | cbn [length] in H; lia].
Qed.

Lemma rowsFrom_snoc o i p w :
  rowsFrom o i p ->
  chain ((i + Z.of_nat (length p)) * o) w ((i + Z.of_nat (length p) + 1) * o) ->
  rowsFrom o i (p ++ [w]).
Proof.
  revert i. induction p as [| w0 p IH]; intros i Hp Hw; cbn [rowsFrom app length] in *.
  - split; [| exact I]. replace (i + Z.of_nat 0) with i in Hw by lia. exact Hw.
  - destruct Hp as [H0 Hp]. split; [exact H0 |].
    apply IH; [exact Hp |].
    replace (i + 1 + Z.of_nat (length p)) with (i + Z.of_nat (S (length p))) by lia.
    exact Hw.
Qed.

Lemma rowsFrom_width o i p :
  rowsFrom o i p -> Forall (fun w => wordWidth w = o) p.
Proof.
  revert i. induction p as [| w p IH]; intros i H; cbn [rowsFrom] in *.
  - constructor.
  - destruct H as [Hw Hp]. constructor; [| eauto].
    rewrite (chain_width _ _ _ Hw). lia.
Qed.

(** ** The layout invariant, for a positive row width *)

Lemma subBlocks_withWord db w : subBlocks (withWord db w) = subBlocks db ++ w.
Proof.
  unfold subBlocks. rewrite getPacket_withWord, concat_app.
  cbn [concat]. rewrite app_nil_r. reflexivity.
Qed.

Lemma inputLabelledBits_cut (blk : PacketBlock) (m : Z) :
  start blk <= m + 1 -> m <= endOrStart (start blk) (end_ blk) ->
  blockLabelledBits (mkBlock (start blk) m (label blk))
  ++ inputLabelledBits
       (mkPacketBlock (m + 1) (Some (endOrStart (start blk) (end_ blk)))
          (label blk))
  = inputLabelledBits blk.
Proof.
  intros H1 H2. unfold blockLabelledBits, inputLabelledBits, blockBits, inputBits.
  cbn [bstart bend blabel start end_ label endOrStart].
  rewrite <- labelled_app. f_equal. symmetry. apply bitRange_split; lia.
Qed.

Lemma laidOut_guard o L e a l db :
  0 < o -> laidOut o L e a l db ->
  loopGuard o a db = false ->
  Z.of_nat (length (getPacket db)) = maxPacketSize /\ a = [].
Proof.
  intros Ho (Hlen & Hrows & Hchain & Hlt & [Hle Hfull] & Hbits) G.
  apply chain_length in Hchain.
  unfold loopGuard in G. apply andb_false_iff in G.
  destruct G as [G | G].
  - apply Z.leb_gt in G. nia.
  - apply Z.ltb_ge in G. split; [lia | apply Hfull; lia].
Qed.

(** The inner loop on a well-formed block that starts right after the last
    bit laid out: it returns, and the state is laid out up to the end of
    the block, unless the ceiling cut it short. *)
Lemma fitLoop_layout o (Ho : 0 < o) fuel : forall blk a l db L,
  start blk <= endOrStart (start blk) (end_ blk) ->
  maxPacketSize - Z.of_nat (length (getPacket db)) <= Z.of_nat fuel ->
  laidOut o L (start blk - 1) a l db ->
  exists a' l' db',
    fitLoop fuel o blk a l db = Return (a', l') db'
    /\ layoutInv o (L ++ inputLabelledBits blk)
         (endOrStart (start blk) (end_ blk)) a' l' db'.
Proof.
  induction fuel as [| fuel IH]; intros blk a l db L Hwf Hfuel Hinv.
  - destruct (loopGuard o a db) eqn:G.
    { apply loopGuard_true_iff in G. lia. }
    rewrite fitLoop_exit by assumption.
    destruct (laidOut_guard _ _ _ _ _ _ Ho Hinv G) as [Hlen ->].
    destruct Hinv as (Hl & Hrows & Hchain & _).
    exists [], l, db. split; [reflexivity |]. right.
    cbn [chain] in Hchain. repeat split; try assumption. nia.
  - destruct (loopGuard o a db) eqn:G.
    2:{ rewrite fitLoop_exit by assumption.
        destruct (laidOut_guard _ _ _ _ _ _ Ho Hinv G) as [Hlen ->].
        destruct Hinv as (Hl & Hrows & Hchain & _).
        exists [], l, db. split; [reflexivity |]. right.
        cbn [chain] in Hchain. repeat split; try assumption. nia. }
    pose proof G as G'. apply loopGuard_true_iff in G'.
    destruct G' as [_ Hroom].
    destruct Hinv as (Hl & Hrows & Hchain & Hlt & Hceil & Hbits).
    replace (start blk - 1 + 1) with (start blk) in * by lia.
    set (e' := endOrStart (start blk) (end_ blk)) in *.
    destruct (Z.lt_trichotomy (e' + 1) (l * o)) as [Hopen | [Hfull | Hcut]].
    + subst e'. rewrite fitLoop_fits_row_open by assumption.
      eexists _, _, _. split; [reflexivity |]. left.
      repeat split; try assumption.
      * apply chain_snoc; assumption.
      * lia.
      * intros Habs. lia.
      * rewrite app_assoc, flat_map_app, Hbits. cbn [flat_map].
        rewrite app_nil_r. reflexivity.
    + subst e'. rewrite fitLoop_fits_row_full by assumption.
      eexists _, _, _. split; [reflexivity |]. left.
      repeat split.
      * rewrite length_withWord. lia.
      * rewrite getPacket_withWord. apply rowsFrom_snoc; [assumption |].
        replace (0 + Z.of_nat (length (getPacket db))) with (l - 1) by lia.
        replace ((l - 1 + 1) * o)
          with (endOrStart (start blk) (end_ blk) + 1) by lia.
        apply chain_snoc; assumption.
      * cbn [chain]. lia.
      * lia.
      * rewrite length_withWord. lia.
      * rewrite subBlocks_withWord, app_nil_r, app_assoc, flat_map_app.
        rewrite Hbits. cbn [flat_map]. rewrite app_nil_r. reflexivity.
    + subst e'. rewrite fitLoop_cuts by assumption.
      set (part := mkBlock (start blk) (l * o - 1) (label blk)).
      set (next := mkPacketBlock (l * o)
                     (Some (endOrStart (start blk) (end_ blk))) (label blk)).
      assert (Hnext : laidOut o (L ++ blockLabelledBits part)
                        (start next - 1) [] (l + 1) (withWord db (a ++ [part]))).
      { repeat split.
        * rewrite length_withWord. lia.
        * rewrite getPacket_withWord. apply rowsFrom_snoc; [assumption |].
          replace (0 + Z.of_nat (length (getPacket db))) with (l - 1) by lia.
          replace ((l - 1 + 1) * o) with (l * o - 1 + 1) by lia.
          apply chain_snoc; [assumption | lia].
        * cbn [chain start next]. lia.
        * cbn [start next]. lia.
        * rewrite length_withWord. lia.
        * rewrite subBlocks_withWord, app_nil_r, app_assoc, flat_map_app.
          rewrite Hbits. cbn [flat_map]. rewrite app_nil_r. reflexivity. }
      destruct (IH next [] (l + 1) (withWord db (a ++ [part]))
                  (L ++ blockLabelledBits part)) as (a' & l' & db' & Hrun & Hinv').
      * cbn [start end_ next endOrStart]. lia.
      * rewrite length_withWord. lia.
      * exact Hnext.
      * exists a', l', db'. split; [exact Hrun |].
        cbn [start end_ next endOrStart] in Hinv'.
        rewrite <- app_assoc in Hinv'.
        replace (blockLabelledBits part ++ inputLabelledBits next)
          with (inputLabelledBits blk) in Hinv'; [exact Hinv' |].
        symmetry. subst part next.
        replace (l * o) with (l * o - 1 + 1) at 2 by lia.
        apply inputLabelledBits_cut; lia.
Qed.

Lemma contiguousFrom_cons expected b bs :
  contiguousFrom expected (b :: bs) = true
  <-> start b = expected
      /\ start b <= endOrStart (start b) (end_ b)
      /\ contiguousFrom (endOrStart (start b) (end_ b) + 1) bs = true.
Proof.
  cbn [contiguousFrom]. rewrite !andb_true_iff, Z.eqb_eq, Z.leb_le. tauto.
Qed.

Lemma expectedNextStart_le expected bs :
  contiguousFrom expected bs = true -> expected <= expectedNextStart expected bs.
Proof.
  revert expected. induction bs as [| b bs IH]; intros expected H.
  - cbn. lia.
  - apply contiguousFrom_cons in H. destruct H as (H1 & H2 & H3).
    cbn [expectedNextStart]. specialize (IH _ H3). lia.
Qed.

(** One valid input block keeps the layout invariant. *)
Lemma populateBlock_layout o (Ho : 0 < o) b st db L :
  start b = lastByte st + 1 ->
  start b <= endOrStart (start b) (end_ b) ->
  layoutInv o L (lastByte st) (word st) (row st) db ->
  exists st' db',
    populateBlock o b st db = Return st' db'
    /\ lastByte st' = endOrStart (start b) (end_ b)
    /\ layoutInv o (L ++ inputLabelledBits b) (lastByte st') (word st')
         (row st') db'.
Proof.
  intros Hstart Hwf Hinv. unfold populateBlock.
  rewrite invalidRange_valid by assumption.
  destruct (Z.eqb_spec (start b) (lastByte st + 1)) as [_ | Hne];
    [cbn [negb] | contradiction].
  destruct Hinv as [Hlaid | Htrunc].
  - replace (lastByte st) with (start b - 1) in Hlaid by lia.
    destruct (fitLoop_layout o Ho (loopFuel db) b (word st) (row st) db L)
      as (a' & l' & db' & Hrun & Hinv'); try assumption.
    { unfold loopFuel. lia. }
    rewrite Hrun. eexists _, _. split; [reflexivity |].
    split; [reflexivity |]. exact Hinv'.
  - destruct Htrunc as (Hlen & Hrows & Hnil & Hpast).
    rewrite fitLoop_exit.
    2:{ unfold loopGuard. apply andb_false_iff. right. apply Z.ltb_ge. lia. }
    eexists _, _. split; [reflexivity |]. split; [reflexivity |].
    right. cbn [lastByte word row]. repeat split; try assumption. lia.
Qed.

(** A valid block list keeps the layout invariant. *)
Lemma populateBlocks_layout o (Ho : 0 < o) bs : forall st db L,
  contiguousFrom (lastByte st + 1) bs = true ->
  layoutInv o L (lastByte st) (word st) (row st) db ->
  exists st' db',
    populateBlocks o bs st db = Return st' db'
    /\ lastByte st' + 1 = expectedNextStart (lastByte st + 1) bs
    /\ layoutInv o (L ++ flat_map inputLabelledBits bs) (lastByte st')
         (word st') (row st') db'.
Proof.
  induction bs as [| b bs IH]; intros st db L Hvalid Hinv.
  - exists st, db. cbn. rewrite app_nil_r. auto.
  - apply contiguousFrom_cons in Hvalid. destruct Hvalid as (H1 & H2 & H3).
    destruct (populateBlock_layout o Ho b st db L H1 H2 Hinv)
      as (st1 & db1 & Hrun1 & Hlast & Hinv1).
    rewrite <- Hlast in H3.
    destruct (IH st1 db1 _ H3 Hinv1) as (st2 & db2 & Hrun2 & Hlast2 & Hinv2).
    exists st2, db2. cbn [populateBlocks flat_map expectedNextStart].
    unfold bind. rewrite Hrun1, Hrun2.
    split; [reflexivity |]. split.
    + rewrite Hlast2, Hlast. reflexivity.
    + rewrite <- app_assoc in Hinv2. exact Hinv2.
Qed.

Lemma laidOut_initial o : 0 < o -> laidOut o [] (-1) [] 1 initialDB.
Proof.
  intros Ho. unfold laidOut, underCeiling, maxPacketSize, subBlocks, getPacket.
  cbn [initialDB packet data length chain rowsFrom concat app flat_map].
  repeat split; try lia; reflexivity.
Qed.

(** Valid input on a cleared store: [populate] returns; the store it
    leaves is the one the block loop left, plus the row being filled if that
    row is not empty. *)
Lemma populate_layout env ast :
  0 < bitsPerRow (getConfig env) ->
  validInput (blocks ast) = true ->
  exists st db1,
    populateBlocks (bitsPerRow (getConfig env)) (blocks ast) locals0 initialDB
    = Return st db1
    /\ populate env ast initialDB
       = Return tt (match word st with [] => db1 | _ => withWord db1 (word st) end)
    /\ layoutInv (bitsPerRow (getConfig env))
         (flat_map inputLabelledBits (blocks ast))
         (totalBits (blocks ast) - 1) (word st) (row st) db1.
Proof.
  intros Ho Hvalid.
  destruct (populateBlocks_layout _ Ho (blocks ast) locals0 initialDB [])
    as (st & db1 & Hrun & Hlast & Hinv).
  { exact Hvalid. }
  { left. apply laidOut_initial. exact Ho. }
  exists st, db1. split; [exact Hrun |]. split.
  - unfold populate, bind. fold locals0. rewrite Hrun.
    destruct (word st); [apply pushWord_nil | apply pushWord_cons].
  - cbn [app] in Hinv. unfold totalBits.
    cbn [lastByte locals0] in Hlast. replace (-1 + 1) with 0 in Hlast by lia.
    rewrite <- Hlast. replace (lastByte st + 1 - 1) with (lastByte st) by lia.
    exact Hinv.
Qed.

(** ** Boundary cases *)

(** One block spanning exactly one row of eight: one word, one sub-block. *)
Example populate_one_row :
  populate envEight (diagram [field 0 7 "A"]) initialDB
  = Return tt (withWord initialDB [mkBlock 0 7 "A"]).
Proof. reflexivity. Qed.

(** One block spanning two rows of eight: two words, each with one
    sub-block under the original label. *)
Example populate_two_rows :
  populate envEight (diagram [field 0 15 "A"]) initialDB
  = Return tt (withWord (withWord initialDB [mkBlock 0 7 "A"])
                 [mkBlock 8 15 "A"]).
Proof. reflexivity. Qed.

(** ** Contiguity (C1) *)

Lemma div_between (t o q : Z) : 0 < o -> q * o <= t < (q + 1) * o -> t / o = q.
Proof.
  intros Ho H. symmetry. apply (Z.div_unique t o q (t - q * o)); lia.
Qed.

(** C1: for every block list that passes validation (first block at 0, each
    block starting right after the previous end, no end before its start)
    and that the ceiling does not cut short (at most [maxPacketSize] rows of
    bits), [populate] on a cleared store returns, and the bit ranges of the
    stored sub-blocks, concatenated in emission order, equal the bit ranges
    of the input blocks concatenated in input order -- also when every bit
    is tagged with the label of its field. *)
Theorem populate_repartitions env ast :
  0 < bitsPerRow (getConfig env) ->
  validInput (blocks ast) = true ->
  totalBits (blocks ast) <= maxPacketSize * bitsPerRow (getConfig env) ->
  exists db',
    populate env ast initialDB = Return tt db'
    /\ flat_map blockBits (subBlocks db') = flat_map inputBits (blocks ast)
    /\ flat_map blockLabelledBits (subBlocks db')
       = flat_map inputLabelledBits (blocks ast).
Proof.
  intros Ho Hvalid Hroom.
  destruct (populate_layout env ast Ho Hvalid) as (st & db1 & _ & Hrun & Hinv).
  eexists. split; [exact Hrun |].
  assert (Hl : flat_map blockLabelledBits
                 (subBlocks (match word st with
                             | [] => db1
                             | _ => withWord db1 (word st)
                             end))
               = flat_map inputLabelledBits (blocks ast)).
  { destruct Hinv as [Hlaid | Htrunc].
    - destruct Hlaid as (_ & _ & _ & _ & _ & Hbits).
      destruct (word st) as [| b w] eqn:Hw.
      + rewrite app_nil_r in Hbits. exact Hbits.
      + rewrite subBlocks_withWord. exact Hbits.
    - destruct Htrunc as (_ & _ & _ & Hpast). lia. }
  split; [| exact Hl].
  rewrite <- map_fst_blockLabelledBits, <- map_fst_inputLabelledBits.
  rewrite Hl. reflexivity.
Qed.

Lemma populate_repartitions_witness :
  exists db',
    populate envEight (diagram tenBits) initialDB = Return tt db'
    /\ flat_map blockBits (subBlocks db') = flat_map inputBits tenBits
    /\ flat_map blockLabelledBits (subBlocks db')
       = flat_map inputLabelledBits tenBits.
Proof.
  apply (populate_repartitions envEight (diagram tenBits)).
  - reflexivity.
  - reflexivity.
  - vm_compute. discriminate.
Defined.

(** ** Row width and the final partial row (C6) *)

Lemma Forall_removelast {A} (P : A -> Prop) (l : list A) :
  Forall P l -> Forall P (removelast l).
Proof.
  induction 1 as [| x l Hx Hl IH]; [constructor |].
  cbn [removelast]. destruct l; [constructor |].
  constructor; assumption.
Qed.

(** C6: for every valid input, [populate] on a cleared store returns and
    every stored word except possibly the last has its widths
    [end - start + 1] sum to [bitsPerRow]; and when the input is not cut
    short and its length is not a multiple of [bitsPerRow], the row left
    partially filled at the end of the input is stored as the last word,
    after the full rows, and covers exactly the remaining bits (with ten
    bits and rows of eight: one full row, then a word covering bits 8-9). *)
Theorem populate_row_width env ast :
  0 < bitsPerRow (getConfig env) ->
  validInput (blocks ast) = true ->
  exists db',
    populate env ast initialDB = Return tt db'
    /\ Forall (fun w => wordWidth w = bitsPerRow (getConfig env))
         (removelast (getPacket db'))
    /\ (totalBits (blocks ast) <= maxPacketSize * bitsPerRow (getConfig env) ->
        totalBits (blocks ast) mod bitsPerRow (getConfig env) <> 0 ->
        exists p a,
          getPacket db' = p ++ [a]
          /\ Z.of_nat (length p)
             = totalBits (blocks ast) / bitsPerRow (getConfig env)
          /\ flat_map blockBits a
             = bitRange (bitsPerRow (getConfig env)
                         * (totalBits (blocks ast) / bitsPerRow (getConfig env)))
                 (totalBits (blocks ast) - 1)).
Proof.
  intros Ho Hvalid.
  destruct (populate_layout env ast Ho Hvalid) as (st & db1 & _ & Hrun & Hinv).
  set (o := bitsPerRow (getConfig env)) in *.
  set (T := totalBits (blocks ast)) in *.
  eexists. split; [exact Hrun |].
  destruct Hinv as [Hlaid | Htrunc].
  - destruct Hlaid as (Hlen & Hrows & Hchain & Hlt & _ & _).
    replace (T - 1 + 1) with T in * by lia.
    pose proof (chain_length _ _ _ Hchain) as Hge.
    assert (Hdiv : T / o = row st - 1) by (apply div_between; lia).
    split.
    + destruct (word st) as [| b w].
      * apply Forall_removelast. eapply rowsFrom_width. exact Hrows.
      * rewrite getPacket_withWord, removelast_last.
        eapply rowsFrom_width. exact Hrows.
    + intros _ Hmod.
      destruct (word st) as [| b w] eqn:Hw.
      * exfalso. apply Hmod. cbn [chain] in Hchain. rewrite <- Hchain.
        apply Z.mod_mul. lia.
      * exists (getPacket db1), (b :: w).
        rewrite getPacket_withWord. split; [reflexivity |].
        split; [lia |].
        rewrite (chain_bits _ _ _ Hchain). f_equal. rewrite Hdiv. lia.
  - destruct Htrunc as (Hlen & Hrows & Hnil & Hpast).
    rewrite Hnil. split.
    + apply Forall_removelast. eapply rowsFrom_width. exact Hrows.
    + intros Hroom. lia.
Qed.

Lemma populate_row_width_witness :
  exists db',
    populate envEight (diagram tenBits) initialDB = Return tt db'
    /\ Forall (fun w => wordWidth w = 8) (removelast (getPacket db'))
    /\ exists p a,
         getPacket db' = p ++ [a]
         /\ Z.of_nat (length p) = 1
         /\ flat_map blockBits a = [8; 9].
Proof.
  destruct (populate_row_width envEight (diagram tenBits))
    as (db' & Hrun & Hfull & Hlast).
  - reflexivity.
  - reflexivity.
  - exists db'. split; [exact Hrun |]. split; [exact Hfull |].
    apply Hlast.
    + vm_compute. discriminate.
    + vm_compute. discriminate.
Defined.

(** ** Stored words are never empty (C10) *)

(** C10: every word in the store is non-empty: [pushWord] leaves the store
    alone when handed an empty row, [populate] -- whatever its input and
    however it ends -- keeps a store of non-empty words that way, and for a
    valid input that is not cut short and whose length is an exact multiple
    of [bitsPerRow] the final flush adds nothing: the store holds exactly
    [totalBits / bitsPerRow] words. *)
Theorem populate_words_nonempty env ast db :
  pushWord [] db = Return tt db
  /\ (forall db', nonEmptyWords db ->
                  finalDB (populate env ast db) = Some db' ->
                  nonEmptyWords db')
  /\ (0 < bitsPerRow (getConfig env) ->
      validInput (blocks ast) = true ->
      totalBits (blocks ast) <= maxPacketSize * bitsPerRow (getConfig env) ->
      totalBits (blocks ast) mod bitsPerRow (getConfig env) = 0 ->
      exists db',
        populate env ast initialDB = Return tt db'
        /\ nonEmptyWords db'
        /\ Z.of_nat (length (getPacket db'))
           = totalBits (blocks ast) / bitsPerRow (getConfig env)).
Proof.
  split; [reflexivity |]. split.
  - intros db' Hne Hfinal.
    pose proof (populate_outcome env ast db) as H.
    destruct (populate env ast db) as [[] db1 | e db1 |];
      cbn in H, Hfinal; [| | discriminate].
    + inversion Hfinal; subst. apply H. exact Hne.
    + inversion Hfinal; subst. apply H. exact Hne.
  - intros Ho Hvalid Hroom Hmod.
    destruct (populate_layout env ast Ho Hvalid) as (st & db1 & _ & Hrun & Hinv).
    set (o := bitsPerRow (getConfig env)) in *.
    set (T := totalBits (blocks ast)) in *.
    destruct Hinv as [Hlaid | Htrunc].
    2:{ destruct Htrunc as (_ & _ & _ & Hpast). lia. }
    destruct Hlaid as (Hlen & Hrows & Hchain & Hlt & _ & _).
    replace (T - 1 + 1) with T in * by lia.
    pose proof (chain_length _ _ _ Hchain) as Hge.
    assert (Hdiv : T / o = row st - 1) by (apply div_between; lia).
    assert (HT : T = (row st - 1) * o).
    { rewrite (Z.div_mod T o) by lia. rewrite Hmod, Hdiv. lia. }
    rewrite <- HT in Hchain. apply chain_nil in Hchain.
    rewrite Hchain in Hrun.
    exists db1. split; [exact Hrun |]. split; [| lia].
    pose proof (populate_outcome env ast initialDB) as H.
    rewrite Hrun in H. cbn in H. apply H. constructor.
Qed.

Lemma populate_words_nonempty_witness :
  exists db',
    populate envEight (diagram sixteenBits) initialDB = Return tt db'
    /\ nonEmptyWords db'
    /\ Z.of_nat (length (getPacket db')) = 2.
Proof.
  destruct (populate_words_nonempty envEight (diagram sixteenBits) initialDB)
    as (_ & _ & H).
  apply H.
  - reflexivity.
  - reflexivity.
  - vm_compute. discriminate.
  - reflexivity.
Defined.

(** ** The ceiling (C3) *)

(** C3, as stated, fails: 10001 one-bit fields in rows of 32 are laid out
    without error into 313 words that hold 10001 sub-blocks, more than
    10,000. *)
Lemma populate_exceeds_ten_thousand_sub_blocks :
  exists subBlockCount,
    storeSize (populate envDefault (diagram (oneBitFields 10001)) initialDB)
    = Some (subBlockCount, 313)
    /\ 10000 < subBlockCount.
Proof.
  exists 10001. split; [vm_compute; reflexivity | reflexivity].
Qed.

(** C3, amended: the ceiling bounds the stored words (rows), not the
    sub-blocks.  From a store that holds at most [maxPacketSize] words,
    [populate] ends -- by returning or by throwing -- with at most
    [maxPacketSize] words stored; and on a cleared store a valid input
    returns without any error even when it needs more rows than that, in
    which case exactly [maxPacketSize] words are stored. *)
Theorem populate_word_ceiling env ast db :
  Z.of_nat (length (getPacket db)) <= maxPacketSize ->
  (exists db', finalDB (populate env ast db) = Some db'
               /\ Z.of_nat (length (getPacket db')) <= maxPacketSize)
  /\ (0 < bitsPerRow (getConfig env) ->
      validInput (blocks ast) = true ->
      exists db',
        populate env ast initialDB = Return tt db'
        /\ Z.of_nat (length (getPacket db')) <= maxPacketSize
        /\ (maxPacketSize * bitsPerRow (getConfig env)
            <= totalBits (blocks ast) ->
            Z.of_nat (length (getPacket db')) = maxPacketSize)).
Proof.
  intros Hdb. split.
  - pose proof (populate_outcome env ast db) as H.
    destruct (populate env ast db) as [[] db1 | e db1 |];
      cbn in H; [| | contradiction].
    + exists db1. split; [reflexivity |]. apply H. exact Hdb.
    + exists db1. split; [reflexivity |]. apply H. exact Hdb.
  - intros Ho Hvalid.
    destruct (populate_layout env ast Ho Hvalid) as (st & db1 & _ & Hrun & Hinv).
    set (o := bitsPerRow (getConfig env)) in *.
    set (T := totalBits (blocks ast)) in *.
    eexists. split; [exact Hrun |].
    pose proof (populate_outcome env ast initialDB) as H.
    rewrite Hrun in H. cbn [outcomeSat] in H. destruct H as (_ & _ & Hle).
    split.
    { apply Hle. unfold maxPacketSize. cbn. lia. }
    intros Hbig.
    destruct Hinv as [Hlaid | Htrunc].
    + destruct Hlaid as (Hlen & Hrows & Hchain & Hlt & [Hceil Hfull] & _).
      replace (T - 1 + 1) with T in * by lia.
      assert (Hmax : Z.of_nat (length (getPacket db1)) = maxPacketSize) by nia.
      rewrite (Hfull Hmax). exact Hmax.
    + destruct Htrunc as (Hlen & _ & Hnil & _). rewrite Hnil. exact Hlen.
Qed.

Lemma populate_word_ceiling_witness :
  exists db',
    populate envEight (diagram oneLongField) initialDB = Return tt db'
    /\ Z.of_nat (length (getPacket db')) <= 10000
    /\ Z.of_nat (length (getPacket db')) = 10000.
Proof.
  destruct (populate_word_ceiling envEight (diagram oneLongField) initialDB)
    as (_ & H).
  - vm_compute. discriminate.
  - destruct H as (db' & Hrun & Hle & Hfull).
    + reflexivity.
    + reflexivity.
    + exists db'. split; [exact Hrun |]. split; [exact Hle |].
      apply Hfull. vm_compute. discriminate.
Defined.

(** ** Errors (C4, C5) *)

(** A valid prefix is laid out without error, whatever the row width, and
    leaves [lastByte + 1] at the start expected next. *)
Lemma populateBlocks_valid_prefix o pre : forall st db,
  contiguousFrom (lastByte st + 1) pre = true ->
  exists st' db',
    populateBlocks o pre st db = Return st' db'
    /\ lastByte st' + 1 = expectedNextStart (lastByte st + 1) pre.
Proof.
  induction pre as [| b pre IH]; intros st db Hvalid.
  - exists st, db. split; reflexivity.
  - apply contiguousFrom_cons in Hvalid. destruct Hvalid as (H1 & H2 & H3).
    pose proof (populateBlock_outcome o b st db) as Hb.
    pose proof (invalidRange_valid _ _ H2) as Hrange.
    destruct (populateBlock o b st db) as [st1 db1 | e db1 |] eqn:Hrun;
      cbn in Hb; [| | contradiction].
    + destruct Hb as (_ & _ & _ & Hlast & _).
      rewrite <- Hlast in H3.
      destruct (IH st1 db1 H3) as (st2 & db2 & Hrun2 & Hlast2).
      exists st2, db2. cbn [populateBlocks expectedNextStart]. unfold bind.
      rewrite Hrun, Hrun2, Hlast2, Hlast. split; reflexivity.
    + exfalso. destruct Hb as (_ & [(Habs & _) | [(_ & Habs & _) | (_ & _ & Habs & _)]]).
      * congruence.
      * lia.
      * lia.
Qed.

(** [populate] on a block list that goes wrong at [b], after a valid prefix:
    the error is the one [populateBlock] throws at [b], and the store is the
    one the prefix left -- the row being filled is not flushed and no later
    block is looked at. *)
Lemma populate_throws_at env ast pre b post db st1 db1 e :
  blocks ast = pre ++ b :: post ->
  populateBlocks (bitsPerRow (getConfig env)) pre locals0 db = Return st1 db1 ->
  populateBlock (bitsPerRow (getConfig env)) b st1 db1 = Throw e db1 ->
  populate env ast db = Throw e db1.
Proof.
  intros Hblocks Hpre Hb. unfold populate. fold locals0.
  rewrite Hblocks. unfold bind at 1. rewrite populateBlocks_app.
  unfold bind at 1. rewrite Hpre. cbn [populateBlocks]. unfold bind.
  rewrite Hb. reflexivity.
Qed.

(** C4, as stated, fails: in [{5-2 bad}] the block starts at 5 while 0 is
    expected, yet the error raised is the invalid-range one, because the
    range is checked before the start. *)
Lemma populate_range_checked_before_start :
  (exists b, In b endBeforeStart /\ start b <> expectedNextStart 0 [])
  /\ populate envEight (diagram endBeforeStart) initialDB
     = Throw (InvalidBlock 5 2) initialDB
  /\ forall r c expected db',
       populate envEight (diagram endBeforeStart) initialDB
       <> Throw (NotContiguous r c expected) db'.
Proof.
  split; [| split].
  - eexists. split; [left; reflexivity |]. cbn. discriminate.
  - reflexivity.
  - intros r c expected db'. vm_compute. discriminate.
Qed.

(** C4, amended: after a valid prefix, a block that passes the range check
    (its end is absent, zero, or not before its start) and does not start at
    the expected next start -- the bit after the previous end, 0 for the
    first block -- makes [populate] throw the non-contiguous error carrying
    the block's start, its end and the expected start; the store is left as
    the prefix left it.  [{0-3 A}, {5-7 B}] throws it with start 5 and
    expected start 4. *)
Theorem populate_not_contiguous env ast pre b post db :
  blocks ast = pre ++ b :: post ->
  validInput pre = true ->
  invalidRange (start b) (end_ b) = false ->
  start b <> totalBits pre ->
  exists st1 db1,
    populateBlocks (bitsPerRow (getConfig env)) pre locals0 db = Return st1 db1
    /\ populate env ast db
       = Throw (NotContiguous (start b) (endOrStart (start b) (end_ b))
                  (totalBits pre)) db1.
Proof.
  intros Hblocks Hvalid Hrange Hstart.
  destruct (populateBlocks_valid_prefix (bitsPerRow (getConfig env)) pre
              locals0 db Hvalid) as (st1 & db1 & Hpre & Hlast).
  exists st1, db1. split; [exact Hpre |].
  apply (populate_throws_at env ast pre b post db st1 db1); try assumption.
  unfold populateBlock. rewrite Hrange.
  cbn [lastByte locals0] in Hlast. replace (-1 + 1) with 0 in Hlast by lia.
  fold (totalBits pre) in Hlast. rewrite Hlast.
  destruct (Z.eqb_spec (start b) (totalBits pre)); [contradiction | reflexivity].
Qed.

Lemma populate_not_contiguous_witness :
  exists st1 db1,
    populateBlocks 8 [field 0 3 "A"] locals0 initialDB = Return st1 db1
    /\ populate envEight (diagram gapAtFour) initialDB
       = Throw (NotContiguous 5 7 4) db1.
Proof.
  apply (populate_not_contiguous envEight (diagram gapAtFour)
           [field 0 3 "A"] (field 5 7 "B") [] initialDB).
  - reflexivity.
  - reflexivity.
  - reflexivity.
  - vm_compute. discriminate.
Defined.

(** C5, as stated, fails: [{0-3 A}, {5-7 B}, {9-8 C}] contains a block whose
    end is before its start, but [populate] stops at the gap before it and
    raises the non-contiguous error. *)
Lemma populate_earlier_error_wins :
  (exists b, In b gapThenBadRange
             /\ endOrStart (start b) (end_ b) < start b)
  /\ populate envEight (diagram gapThenBadRange) initialDB
     = Throw (NotContiguous 5 7 4) initialDB
  /\ forall r c db',
       populate envEight (diagram gapThenBadRange) initialDB
       <> Throw (InvalidBlock r c) db'.
Proof.
  split; [| split].
  - exists (field 9 8 "C"). split; [right; right; left; reflexivity |].
    cbn. lia.
  - reflexivity.
  - intros r c db'. vm_compute. discriminate.
Qed.

(** C5, amended: after a valid prefix, a block whose end is present, not
    zero and strictly less than its start makes [populate] throw the
    invalid-range error carrying that start and end, and abort: the store is
    left as the prefix left it, the row being filled is not flushed and no
    later block is processed.  [{5-2 bad}] throws it. *)
Theorem populate_invalid_range env ast pre b post c db :
  blocks ast = pre ++ b :: post ->
  validInput pre = true ->
  end_ b = Some c ->
  c <> 0 ->
  c < start b ->
  exists st1 db1,
    populateBlocks (bitsPerRow (getConfig env)) pre locals0 db = Return st1 db1
    /\ populate env ast db = Throw (InvalidBlock (start b) c) db1.
Proof.
  intros Hblocks Hvalid Hend Hnz Hlt.
  destruct (populateBlocks_valid_prefix (bitsPerRow (getConfig env)) pre
              locals0 db Hvalid) as (st1 & db1 & Hpre & _).
  exists st1, db1. split; [exact Hpre |].
  apply (populate_throws_at env ast pre b post db st1 db1); try assumption.
  unfold populateBlock.
  assert (Hrange : invalidRange (start b) (end_ b) = true).
  { apply invalidRange_true_iff. exists c. auto. }
  rewrite Hrange, Hend. reflexivity.
Qed.

Lemma populate_invalid_range_witness :
  exists st1 db1,
    populateBlocks 8 [] locals0 initialDB = Return st1 db1
    /\ populate envEight (diagram endBeforeStart) initialDB
       = Throw (InvalidBlock 5 2) db1.
Proof.
  apply (populate_invalid_range envEight (diagram endBeforeStart)
           [] (field 5 2 "bad") [] 2 initialDB).
  - reflexivity.
  - reflexivity.
  - reflexivity.
  - discriminate.
  - reflexivity.
Defined.

(** An end of zero is falsy in the range check [c && c < r]: [{1-0}] is
    reported as non-contiguous, and [{0-4}, {5-0}] gets past both checks and
    is rejected by the splitter instead. *)
Example populate_zero_end_first :
  populate envEight (diagram [field 1 0 "z"]) initialDB
  = Throw (NotContiguous 1 0 0) initialDB.
Proof. reflexivity. Qed.

Example populate_zero_end_later :
  populate envEight (diagram [field 0 4 "a"; field 5 0 "z"]) initialDB
  = Throw (StartAfterEnd 5 0) initialDB.
Proof. reflexivity. Qed.

(** ** Clearing the store (C9) *)

(** [clear] puts the clone of the template in place; no operation of the
    module ever writes to the template, so that clone is the initial store. *)
Lemma clear_restores_initial env ast db1 :
  finalDB (populate env ast initialDB) = Some db1 ->
  clear db1 = Return tt initialDB.
Proof.
  intros Hfinal.
  pose proof (populate_outcome env ast initialDB) as H.
  assert (Hn : defaultPacketData db1 = defaultPacketData initialDB).
  { destruct (populate env ast initialDB) as [[] db' | e db' |];
      cbn in H, Hfinal; [| | discriminate];
      inversion Hfinal; subst; apply H. }
  unfold clear. rewrite Hn. reflexivity.
Qed.

(** C9: whatever the input, once a first [populate] on a fresh store has
    ended in the store [db1], calling [clear] and running [populate] again
    with the same input and config ends exactly as the first run did: same
    result or error, same words in the store. *)
Theorem populate_after_clear env ast db1 :
  finalDB (populate env ast initialDB) = Some db1 ->
  (_ <- clear ;; populate env ast) db1 = populate env ast initialDB.
Proof.
  intros Hfinal. unfold bind.
  rewrite (clear_restores_initial env ast db1 Hfinal). reflexivity.
Qed.

Lemma populate_after_clear_witness :
  finalDB (populate envEight (diagram tenBits) initialDB)
  = Some (withWord (withWord initialDB
                      [mkBlock 0 3 "A"; mkBlock 4 7 "B"])
                   [mkBlock 8 9 "B"])
  /\ (_ <- clear ;; populate envEight (diagram tenBits))
       (withWord (withWord initialDB [mkBlock 0 3 "A"; mkBlock 4 7 "B"])
                 [mkBlock 8 9 "B"])
     = populate envEight (diagram tenBits) initialDB.
Proof.
  split; [reflexivity |].
  apply (populate_after_clear envEight (diagram tenBits)). reflexivity.
Defined.

(** ** Config resolver (C7) *)

Lemma spread_keys d u :
  rowHeight (spread d u) = mergedKey d u rowHeight_in rowHeight
  /\ bitWidth (spread d u) = mergedKey d u bitWidth_in bitWidth
  /\ bitsPerRow (spread d u) = mergedKey d u bitsPerRow_in bitsPerRow
  /\ showBits (spread d u) = mergedKey d u showBits_in showBits
  /\ paddingX (spread d u) = mergedKey d u paddingX_in paddingX
  /\ paddingY (spread d u) = mergedKey d u paddingY_in paddingY
  /\ useMaxWidth (spread d u) = mergedKey d u useMaxWidth_in useMaxWidth.
Proof.
  unfold mergedKey, spread, spreadKey.
  destruct u as [u |]; cbn; repeat split; reflexivity.
Qed.

(** C7: [getConfig] is a total function of the defaults and the user config
    (no error, no store): provided the imported merge helper hands back the
    merged record unchanged, every key of the result is the user's value
    when the user config has the key and the default otherwise, except that
    [paddingY] is 10 more than that when the merged [showBits] is true. *)
Theorem getConfig_resolves env :
  (forall c, cleanAndMerge env c = c) ->
  let d := defaultConfig_packet env in
  let u := siteConfig_packet env in
  rowHeight (getConfig env) = mergedKey d u rowHeight_in rowHeight
  /\ bitWidth (getConfig env) = mergedKey d u bitWidth_in bitWidth
  /\ bitsPerRow (getConfig env) = mergedKey d u bitsPerRow_in bitsPerRow
  /\ showBits (getConfig env) = mergedKey d u showBits_in showBits
  /\ paddingX (getConfig env) = mergedKey d u paddingX_in paddingX
  /\ useMaxWidth (getConfig env) = mergedKey d u useMaxWidth_in useMaxWidth
  /\ paddingY (getConfig env)
     = (if mergedKey d u showBits_in showBits
        then mergedKey d u paddingY_in paddingY + 10
        else mergedKey d u paddingY_in paddingY).
Proof.
  intros Hcopy d u. unfold getConfig. rewrite Hcopy. fold d u.
  destruct (spread_keys d u) as (H1 & H2 & H3 & H4 & H5 & H6 & H7).
  rewrite <- H1, <- H2, <- H3, <- H4, <- H5, <- H6, <- H7.
  destruct (showBits (spread d u)) eqn:Hshow; cbn;
    rewrite ?Hshow; repeat split; reflexivity.
Qed.

Lemma getConfig_resolves_witness :
  rowHeight (getConfig envEight) = 32
  /\ bitWidth (getConfig envEight) = 32
  /\ bitsPerRow (getConfig envEight) = 8
  /\ showBits (getConfig envEight) = true
  /\ paddingX (getConfig envEight) = 5
  /\ useMaxWidth (getConfig envEight) = true
  /\ paddingY (getConfig envEight) = 15.
Proof.
  apply (getConfig_resolves envEight). intros c. reflexivity.
Defined.

(** ** Geometry (C8) *)

Lemma drawBlock_rects cfg y b :
  rects (drawBlock cfg y b)
  = [(Z.rem (bstart b) (bitsPerRow cfg) * bitWidth cfg + 1, y,
      (bend b - bstart b + 1) * bitWidth cfg - paddingX cfg, rowHeight cfg)].
Proof.
  unfold drawBlock, rects.
  destruct (showBits cfg); cbn [negb];
    [destruct (bend b =? bstart b) |]; reflexivity.
Qed.

Lemma drawBlock_bitNumbers cfg y b :
  bitNumbers (drawBlock cfg y b)
  = if showBits cfg
    then ("packetByte start", bstart b)
         :: (if bend b =? bstart b then [] else [("packetByte end", bend b)])
    else [].
Proof.
  unfold drawBlock, bitNumbers.
  destruct (showBits cfg); cbn [negb];
    [destruct (bend b =? bstart b) |]; reflexivity.
Qed.

(** C8, as stated, fails on [x]: the rectangle of the sub-block 0-7 in row 0
    is drawn at [x = 1], not at [(0 mod 8) * 32 = 0]. *)
Lemma drawWord_rect_is_shifted :
  rects (drawWord [mkBlock 0 7 "A"] 0 (getConfig envEight))
  = [(1, 15, 251, 32)]
  /\ map (specGeometry (getConfig envEight) 0) [mkBlock 0 7 "A"]
     = [(0, 15, 251, 32)]
  /\ rects (drawWord [mkBlock 0 7 "A"] 0 (getConfig envEight))
     <> map (specGeometry (getConfig envEight) 0) [mkBlock 0 7 "A"].
Proof.
  split; [reflexivity |]. split; [reflexivity |].
  vm_compute. discriminate.
Qed.

(** C8, amended: for a word drawn at row index [r] and each sub-block in it
    (bits numbered from 0, end not before start, rows of positive width),
    the rectangle has [x = (start mod bitsPerRow) * bitWidth + 1],
    [y = r * (rowHeight + paddingY) + paddingY],
    [width = (end - start + 1) * bitWidth - paddingX] and
    [height = rowHeight]; with [showBits] set the start bit index is
    annotated, and the end bit index only when the sub-block spans more than
    one bit; without it no bit index is annotated. *)
Theorem drawWord_geometry cfg r w :
  0 < bitsPerRow cfg ->
  Forall (fun b => 0 <= bstart b <= bend b) w ->
  rects (drawWord w r cfg) = map (shiftedGeometry cfg r) w
  /\ bitNumbers (drawWord w r cfg)
     = if showBits cfg then flat_map specBitNumbers w else [].
Proof.
  intros Ho Hw. unfold drawWord.
  set (y := r * (rowHeight cfg + paddingY cfg) + paddingY cfg).
  induction Hw as [| b w Hb Hw [IHr IHb]].
  - split; [reflexivity | destruct (showBits cfg); reflexivity].
  - cbn [flat_map map]. unfold rects, bitNumbers in *.
    rewrite !flat_map_app. fold (rects (drawBlock cfg y b)).
    fold (bitNumbers (drawBlock cfg y b)).
    rewrite drawBlock_rects, drawBlock_bitNumbers, IHr, IHb.
    split.
    + unfold shiftedGeometry at 1. fold y.
      rewrite Z.rem_mod_nonneg by lia. reflexivity.
    + destruct (showBits cfg); [| reflexivity].
      unfold specBitNumbers at 2.
      destruct (Z.eqb_spec (bend b) (bstart b)) as [Heq | Hne];
        destruct (Z.ltb_spec (bstart b) (bend b)) as [Hlt | Hge];
        try lia; reflexivity.
Qed.

Lemma drawWord_geometry_witness :
  rects (drawWord [mkBlock 8 14 "A"; mkBlock 15 15 "B"] 1 (getConfig envEight))
  = [(1, 62, 219, 32); (225, 62, 27, 32)]
  /\ bitNumbers (drawWord [mkBlock 8 14 "A"; mkBlock 15 15 "B"] 1
                   (getConfig envEight))
     = [("packetByte start", 8); ("packetByte end", 14);
        ("packetByte start", 15)].
Proof.
  apply (drawWord_geometry (getConfig envEight) 1
           [mkBlock 8 14 "A"; mkBlock 15 15 "B"]).
  - reflexivity.
  - repeat constructor; cbn; discriminate.
Defined.

(** [draw] hands the word at index [i] of the store to [drawWord] with row
    number [i]. *)
Lemma drawWords_nth cfg ws : forall (r : Z) (i : nat),
  nth_error (drawWords cfg r ws) i
  = option_map (fun w => drawWord w (r + Z.of_nat i) cfg) (nth_error ws i).
Proof.
  induction ws as [| w ws IH]; intros r i.
  - destruct i; reflexivity.
  - destruct i as [| i]; cbn [drawWords nth_error option_map].
    + replace (r + Z.of_nat 0) with r by lia. reflexivity.
    + rewrite IH. destruct (nth_error ws i); [| reflexivity].
      cbn [option_map]. do 2 f_equal. lia.
Qed.

Lemma draw_groups_nth env diagramTitle db (i : nat) :
  nth_error (groups (draw env diagramTitle db)) i
  = option_map (fun w => drawWord w (Z.of_nat i) (getConfig env))
      (nth_error (getPacket db) i).
Proof. unfold draw. cbn [groups]. apply drawWords_nth. Qed.

(** ** Fuel is only a bound *)

(** Once the inner loop ends with some fuel, more fuel changes nothing. *)
Lemma fitLoop_more_fuel o fuel : forall extra blk a l db,
  fitLoop fuel o blk a l db <> OutOfFuel ->
  fitLoop (fuel + extra) o blk a l db = fitLoop fuel o blk a l db.
Proof.
  induction fuel as [| fuel IH]; intros extra blk a l db Hends.
  - destruct (loopGuard o a db) eqn:G.
    + rewrite fitLoop_no_fuel in Hends by assumption. contradiction.
    + rewrite !fitLoop_exit by assumption. reflexivity.
  - cbn [Nat.add]. revert Hends. cbn [fitLoop].
    destruct ((Z.of_nat (length a) <=? o + 1)
              && (Z.of_nat (length (getPacket db)) <? maxPacketSize));
      [| reflexivity].
    destruct (getNextFittingBlock blk l o) as [e | [t [next |]]];
      try reflexivity.
    destruct (bend t + 1 =? l * o).
    + destruct (pushWord (a ++ [t]) db); try reflexivity. apply IH.
    + apply IH.
Qed.

(** ** Reading the ceiling off the result *)

Lemma length_concat_nonempty (p : list Word) :
  Forall (fun w : Word => w <> []) p ->
  (length p <= length (concat p))%nat.
Proof.
  induction 1 as [| w p Hw Hp IH]; [reflexivity |].
  cbn [concat length]. rewrite length_app.
  destruct w; [contradiction | cbn [length]; lia].
Qed.

(** A valid input whose layout ends with fewer than [maxPacketSize]
    sub-blocks in the store was not cut short. *)
Lemma populate_below_ceiling_not_cut env ast db' :
  0 < bitsPerRow (getConfig env) ->
  validInput (blocks ast) = true ->
  populate env ast initialDB = Return tt db' ->
  Z.of_nat (length (subBlocks db')) < maxPacketSize ->
  totalBits (blocks ast) <= maxPacketSize * bitsPerRow (getConfig env).
Proof.
  intros Ho Hvalid Hrun Hfew.
  destruct (populate_layout env ast Ho Hvalid) as (st & db1 & _ & Hrun' & Hinv).
  rewrite Hrun in Hrun'. inversion Hrun' as [Hdb]. clear Hrun'.
  pose proof (populate_outcome env ast initialDB) as H.
  rewrite Hrun in H. cbn [outcomeSat] in H. destruct H as (_ & Hne & _).
  assert (Hwords : nonEmptyWords db') by (apply Hne; constructor).
  apply length_concat_nonempty in Hwords. fold (subBlocks db') in Hwords.
  assert (Hdb1 : Z.of_nat (length (getPacket db1))
                 <= Z.of_nat (length (getPacket db'))).
  { subst db'. destruct (word st); [lia | rewrite length_withWord; lia]. }
  destruct Hinv as [Hlaid | Htrunc].
  - destruct Hlaid as (Hlen & _ & _ & Hlt & _). nia.
  - destruct Htrunc as (Hlen & _). lia.
Qed.

(** * Further properties of the module *)

(** ** What a run adds to the store *)

(** A run of the inner loop that returns: the words it appended and the
    sub-blocks it emitted, all under the label of the block it was given,
    at most one more than the words it appended. *)
Lemma fitLoop_emits o fuel : forall blk a l db r db',
  fitLoop fuel o blk a l db = Return r db' ->
  exists newWords newBlocks,
    getPacket db' = getPacket db ++ newWords
    /\ concat newWords ++ fst r = a ++ newBlocks
    /\ Forall (fun b => blabel b = label blk) newBlocks
    /\ (length newBlocks <= length newWords + 1)%nat.
Proof.
  induction fuel as [| fuel IH]; intros blk a l db r db' Hrun.
  - destruct (loopGuard o a db) eqn:G.
    + rewrite fitLoop_no_fuel in Hrun by assumption. discriminate.
    + rewrite fitLoop_exit in Hrun by assumption. inversion Hrun; subst.
      exists [], []. cbn. rewrite !app_nil_r. auto.
  - destruct (loopGuard o a db) eqn:G.
    2:{ rewrite fitLoop_exit in Hrun by assumption. inversion Hrun; subst.
        exists [], []. cbn. rewrite !app_nil_r. auto. }
    destruct (Z.lt_ge_cases (endOrStart (start blk) (end_ blk)) (start blk))
      as [Hbad | Hok].
    { rewrite fitLoop_throw in Hrun by assumption. discriminate. }
    destruct (Z.lt_trichotomy (endOrStart (start blk) (end_ blk) + 1) (l * o))
      as [Hopen | [Hfull | Hcut]].
    + rewrite fitLoop_fits_row_open in Hrun by assumption.
      inversion Hrun; subst.
      eexists [], [_]. cbn [concat app fst length].
      rewrite app_nil_r. repeat split; auto.
    + rewrite fitLoop_fits_row_full in Hrun by assumption.
      inversion Hrun; subst.
      eexists [_], [_]. rewrite getPacket_withWord.
      cbn [concat app fst length]. rewrite !app_nil_r.
      repeat split; auto.
    + rewrite fitLoop_cuts in Hrun by assumption.
      destruct (IH _ _ _ _ _ _ Hrun) as (nw & nb & Hp & Hc & Hl & Hn).
      rewrite getPacket_withWord, <- app_assoc in Hp. cbn [app] in Hp, Hc.
      eexists (_ :: nw), (_ :: nb). split; [exact Hp |].
      cbn [concat length]. rewrite <- !app_assoc, Hc. cbn [app].
      repeat split; auto. lia.
Qed.

Lemma populateBlock_emits o b st db st' db' :
  populateBlock o b st db = Return st' db' ->
  exists newWords newBlocks,
    getPacket db' = getPacket db ++ newWords
    /\ concat newWords ++ word st' = word st ++ newBlocks
    /\ Forall (fun x => blabel x = label b) newBlocks
    /\ (length newBlocks <= length newWords + 1)%nat.
Proof.
  unfold populateBlock.
  destruct (invalidRange (start b) (end_ b)); [discriminate |].
  destruct (negb (start b =? lastByte st + 1)); [discriminate |].
  destruct (fitLoop (loopFuel db) o b (word st) (row st) db)
    as [[a l] db1 | e db1 |] eqn:Hloop; try discriminate.
  intros H. inversion H; subst. cbn [word].
  exact (fitLoop_emits _ _ _ _ _ _ _ _ Hloop).
Qed.

(** The whole block list, however it ends: [a'] is the row being filled
    when it ended. *)
Lemma populateBlocks_emits o bs : forall st db db',
  finalDB (populateBlocks o bs st db) = Some db' ->
  exists newWords newBlocks a',
    getPacket db' = getPacket db ++ newWords
    /\ concat newWords ++ a' = word st ++ newBlocks
    /\ Forall (fun x => In (blabel x) (map label bs)) newBlocks
    /\ (length newBlocks <= length newWords + length bs)%nat
    /\ (forall st', populateBlocks o bs st db = Return st' db' ->
                    a' = word st').
Proof.
  induction bs as [| b bs IH]; intros st db db' Hfinal.
  - cbn in Hfinal. inversion Hfinal; subst.
    exists [], [], (word st). cbn. rewrite !app_nil_r.
    repeat split; auto. intros st' H. inversion H. reflexivity.
  - cbn [populateBlocks] in *. unfold bind in *.
    pose proof (populateBlock_outcome o b st db) as Hb.
    destruct (populateBlock o b st db) as [st1 db1 | e db1 |] eqn:Hrun;
      cbn in Hb; [| | contradiction].
    + destruct (populateBlock_emits _ _ _ _ _ _ Hrun)
        as (nw1 & nb1 & Hp1 & Hc1 & Hl1 & Hn1).
      destruct (IH st1 db1 db' Hfinal)
        as (nw2 & nb2 & a' & Hp2 & Hc2 & Hl2 & Hn2 & Hret).
      exists (nw1 ++ nw2), (nb1 ++ nb2), a'.
      split; [rewrite Hp2, Hp1, app_assoc; reflexivity |].
      split.
      { rewrite concat_app, <- app_assoc, Hc2, !app_assoc, Hc1. reflexivity. }
      split.
      { apply Forall_app. split.
        - eapply Forall_impl; [| exact Hl1]. cbn. intros x Hx. left. auto.
        - eapply Forall_impl; [| exact Hl2]. cbn. intros x Hx. right. auto. }
      split.
      { rewrite !length_app. cbn [length]. lia. }
      exact Hret.
    + destruct Hb as (-> & _). cbn in Hfinal. inversion Hfinal; subst.
      exists [], [], (word st). cbn [concat app length].
      rewrite !app_nil_r. repeat split; auto; try lia.
      intros st' H. discriminate.
Qed.

(** What [populate] adds, however it ends: words appended after the ones
    the store held, whose sub-blocks carry labels of the input and number at
    most the appended words plus the input blocks. *)
Lemma populate_emits env ast db db' :
  finalDB (populate env ast db) = Some db' ->
  exists newWords,
    getPacket db' = getPacket db ++ newWords
    /\ Forall (fun x => In (blabel x) (map label (blocks ast)))
         (concat newWords)
    /\ (length (concat newWords)
        <= length newWords + length (blocks ast))%nat.
Proof.
  unfold populate, bind. intros Hfinal.
  destruct (populateBlocks (bitsPerRow (getConfig env)) (blocks ast) locals0 db)
    as [st db1 | e db1 |] eqn:Hrun; [| | discriminate].
  - destruct (populateBlocks_emits (bitsPerRow (getConfig env)) (blocks ast)
                locals0 db db1)
      as (nw & nb & a' & Hp & Hc & Hl & Hn & Hret).
    { rewrite Hrun. reflexivity. }
    rewrite (Hret st Hrun) in Hc. cbn [word locals0 app] in Hc.
    rewrite pushWord_returns in Hfinal. cbn in Hfinal.
    inversion Hfinal as [Hdb]. clear Hfinal.
    destruct (Z.ltb_spec 0 (Z.of_nat (length (word st)))) as [Hpos | Hzero].
    + exists (nw ++ [word st]). cbn [getPacket data packet].
      fold (getPacket db1). rewrite Hp, <- app_assoc.
      split; [reflexivity |].
      rewrite concat_app. cbn [concat]. rewrite app_nil_r, Hc.
      split; [exact Hl |]. rewrite length_app. cbn [length]. lia.
    + assert (Hnil : word st = []).
      { destruct (word st); [reflexivity | cbn [length] in Hzero; lia]. }
      rewrite Hnil, app_nil_r in Hc.
      exists nw. split; [exact Hp |]. rewrite Hc. split; [exact Hl | exact Hn].
  - cbn in Hfinal. inversion Hfinal; subst.
    destruct (populateBlocks_emits (bitsPerRow (getConfig env)) (blocks ast)
                locals0 db db')
      as (nw & nb & a' & Hp & Hc & Hl & Hn & _).
    { rewrite Hrun. reflexivity. }
    cbn [word locals0 app] in Hc. subst nb.
    exists nw. split; [exact Hp |].
    apply Forall_app in Hl. destruct Hl as [Hl _].
    split; [exact Hl |]. rewrite length_app in Hn. lia.
Qed.

(** X1: [populate] only ever appends: however it ends, the words the store
    held before are still there, unchanged and in front, and the template is
    untouched. *)
Theorem populate_append_only env ast db db' :
  finalDB (populate env ast db) = Some db' ->
  exists newWords,
    getPacket db' = getPacket db ++ newWords
    /\ defaultPacketData db' = defaultPacketData db.
Proof.
  intros Hfinal.
  destruct (populate_emits env ast db db' Hfinal) as (nw & Hp & _).
  exists nw. split; [exact Hp |].
  pose proof (populate_outcome env ast db) as H.
  destruct (populate env ast db) as [[] d | e d |]; cbn in H, Hfinal;
    [| | discriminate]; inversion Hfinal; subst; apply H.
Qed.

Lemma populate_append_only_witness :
  exists newWords,
    getPacket (withWord (withWord (withWord initialDB [mkBlock 0 7 "old"])
                           [mkBlock 0 3 "A"; mkBlock 4 7 "B"])
                 [mkBlock 8 9 "B"])
    = getPacket (withWord initialDB [mkBlock 0 7 "old"]) ++ newWords
    /\ defaultPacketData
         (withWord (withWord (withWord initialDB [mkBlock 0 7 "old"])
                      [mkBlock 0 3 "A"; mkBlock 4 7 "B"])
            [mkBlock 8 9 "B"])
       = defaultPacketData (withWord initialDB [mkBlock 0 7 "old"]).
Proof.
  apply (populate_append_only envEight (diagram tenBits)).
  reflexivity.
Defined.

(** X2: every sub-block a run on a cleared store leaves in it carries the
    label of one of the input blocks, whatever the input and the config and
    however the run ends: splitting copies labels, it never makes one up. *)
Theorem populate_labels_from_input env ast db' :
  finalDB (populate env ast initialDB) = Some db' ->
  Forall (fun b => In (blabel b) (map label (blocks ast))) (subBlocks db').
Proof.
  intros Hfinal.
  destruct (populate_emits env ast initialDB db' Hfinal) as (nw & Hp & Hl & _).
  unfold subBlocks. rewrite Hp. exact Hl.
Qed.

Lemma populate_labels_from_input_witness :
  Forall (fun b => In (blabel b) ["A"; "B"; "C"])
    (subBlocks (withWord (withWord initialDB
                            [mkBlock 0 3 "A"; mkBlock 4 7 "B"])
                  [mkBlock 8 11 "B"; mkBlock 12 15 "C"])).
Proof.
  apply (populate_labels_from_input envEight (diagram threeFields)).
  reflexivity.
Defined.

(** X3: a run on a cleared store, however it ends, leaves at most as many
    sub-blocks as it stored words plus the number of input blocks -- hence
    at most [maxPacketSize] plus the number of input blocks. *)
Theorem populate_sub_block_bound env ast db' :
  finalDB (populate env ast initialDB) = Some db' ->
  Z.of_nat (length (subBlocks db'))
  <= Z.of_nat (length (getPacket db')) + Z.of_nat (length (blocks ast))
  /\ Z.of_nat (length (subBlocks db'))
     <= maxPacketSize + Z.of_nat (length (blocks ast)).
Proof.
  intros Hfinal.
  destruct (populate_emits env ast initialDB db' Hfinal) as (nw & Hp & _ & Hn).
  assert (Hceil : Z.of_nat (length (getPacket db')) <= maxPacketSize).
  { pose proof (populate_outcome env ast initialDB) as H.
    destruct (populate env ast initialDB) as [[] d | e d |];
      cbn in H, Hfinal; [| | discriminate]; inversion Hfinal; subst;
      apply H; unfold maxPacketSize; cbn; lia. }
  unfold subBlocks in *. rewrite Hp in *. cbn [getPacket initialDB data packet app] in *.
  lia.
Qed.

Lemma populate_sub_block_bound_witness :
  Z.of_nat (length (subBlocks (withWord (withWord initialDB
                                           [mkBlock 0 3 "A"; mkBlock 4 7 "B"])
                                 [mkBlock 8 11 "B"; mkBlock 12 15 "C"])))
  <= Z.of_nat (length (getPacket (withWord (withWord initialDB
                                              [mkBlock 0 3 "A"; mkBlock 4 7 "B"])
                                    [mkBlock 8 11 "B"; mkBlock 12 15 "C"])))
     + Z.of_nat (length threeFields)
  /\ Z.of_nat (length (subBlocks (withWord (withWord initialDB
                                              [mkBlock 0 3 "A"; mkBlock 4 7 "B"])
                                    [mkBlock 8 11 "B"; mkBlock 12 15 "C"])))
     <= maxPacketSize + Z.of_nat (length threeFields).
Proof.
  apply (populate_sub_block_bound envEight (diagram threeFields)).
  reflexivity.
Defined.

(** ** Rendering into a store that was not cleared *)

Lemma getPacket_prependWords pre db :
  getPacket (prependWords pre db) = pre ++ getPacket db.
Proof. reflexivity. Qed.

Lemma withWord_prependWords pre db w :
  withWord (prependWords pre db) w = prependWords pre (withWord db w).
Proof.
  unfold withWord, prependWords. cbn [defaultPacketData getPacket data packet].
  rewrite app_assoc. reflexivity.
Qed.

Lemma loopGuard_prependWords o a pre db :
  Z.of_nat (length pre) + Z.of_nat (length (getPacket db)) < maxPacketSize ->
  loopGuard o a (prependWords pre db) = loopGuard o a db.
Proof.
  intros H. unfold loopGuard. rewrite getPacket_prependWords, length_app.
  f_equal.
  destruct (Z.ltb_spec (Z.of_nat (length pre + length (getPacket db)))
              maxPacketSize);
    destruct (Z.ltb_spec (Z.of_nat (length (getPacket db))) maxPacketSize);
    try reflexivity; lia.
Qed.

Lemma fitLoop_grows o fuel : forall blk a l db db',
  finalDB (fitLoop fuel o blk a l db) = Some db' ->
  Z.of_nat (length (getPacket db)) <= Z.of_nat (length (getPacket db')).
Proof.
  induction fuel as [| fuel IH]; intros blk a l db db' Hfinal.
  - destruct (loopGuard o a db) eqn:G.
    + rewrite fitLoop_no_fuel in Hfinal by assumption. discriminate.
    + rewrite fitLoop_exit in Hfinal by assumption.
      inversion Hfinal; subst. lia.
  - destruct (loopGuard o a db) eqn:G.
    2:{ rewrite fitLoop_exit in Hfinal by assumption.
        inversion Hfinal; subst. lia. }
    destruct (Z.lt_ge_cases (endOrStart (start blk) (end_ blk)) (start blk))
      as [Hbad | Hok].
    { rewrite fitLoop_throw in Hfinal by assumption.
      inversion Hfinal; subst. lia. }
    destruct (Z.lt_trichotomy (endOrStart (start blk) (end_ blk) + 1) (l * o))
      as [Hopen | [Hfull | Hcut]].
    + rewrite fitLoop_fits_row_open in Hfinal by assumption.
      inversion Hfinal; subst. lia.
    + rewrite fitLoop_fits_row_full in Hfinal by assumption.
      inversion Hfinal; subst. rewrite length_withWord. lia.
    + rewrite fitLoop_cuts in Hfinal by assumption.
      apply IH in Hfinal. rewrite length_withWord in Hfinal. lia.
Qed.

(** The inner loop does not look at the words already stored, only at
    their number: with [pre] in front, and as long as the ceiling stays out
    of reach, it runs the same way. *)
Lemma fitLoop_frame o pre fuel : forall blk a l db db',
  finalDB (fitLoop fuel o blk a l db) = Some db' ->
  Z.of_nat (length pre) + Z.of_nat (length (getPacket db')) < maxPacketSize ->
  fitLoop fuel o blk a l (prependWords pre db)
  = mapDB (prependWords pre) (fitLoop fuel o blk a l db).
Proof.
  induction fuel as [| fuel IH]; intros blk a l db db' Hfinal Hroom;
    pose proof (fitLoop_grows _ _ _ _ _ _ _ Hfinal) as Hgrow;
    assert (Hg : loopGuard o a (prependWords pre db) = loopGuard o a db)
      by (apply loopGuard_prependWords; lia).
  - destruct (loopGuard o a db) eqn:G.
    + rewrite fitLoop_no_fuel in Hfinal by assumption. discriminate.
    + rewrite !fitLoop_exit by assumption. reflexivity.
  - destruct (loopGuard o a db) eqn:G.
    2:{ rewrite !fitLoop_exit by assumption. reflexivity. }
    destruct (Z.lt_ge_cases (endOrStart (start blk) (end_ blk)) (start blk))
      as [Hbad | Hok].
    { rewrite !fitLoop_throw by assumption. reflexivity. }
    destruct (Z.lt_trichotomy (endOrStart (start blk) (end_ blk) + 1) (l * o))
      as [Hopen | [Hfull | Hcut]].
    + rewrite !fitLoop_fits_row_open by assumption. reflexivity.
    + rewrite !fitLoop_fits_row_full by assumption.
      cbn [mapDB]. rewrite withWord_prependWords. reflexivity.
    + rewrite fitLoop_cuts in Hfinal by assumption.
      rewrite !fitLoop_cuts by assumption.
      rewrite withWord_prependWords. exact (IH _ _ _ _ _ Hfinal Hroom).
Qed.

(** Any two amounts of fuel that are enough give the same run. *)
Lemma fitLoop_any_fuel o fuel1 fuel2 blk a l db :
  maxPacketSize - Z.of_nat (length (getPacket db)) <= Z.of_nat fuel1 ->
  maxPacketSize - Z.of_nat (length (getPacket db)) <= Z.of_nat fuel2 ->
  fitLoop fuel1 o blk a l db = fitLoop fuel2 o blk a l db.
Proof.
  intros H1 H2.
  assert (Hends : fitLoop (loopFuel db) o blk a l db <> OutOfFuel).
  { pose proof (fitLoop_enough_fuel o (loopFuel db) blk a l db) as H.
    destruct (fitLoop (loopFuel db) o blk a l db); try discriminate.
    intros _. apply H. unfold loopFuel. lia. }
  replace fuel1 with (loopFuel db + (fuel1 - loopFuel db))%nat
    by (unfold loopFuel; lia).
  replace fuel2 with (loopFuel db + (fuel2 - loopFuel db))%nat
    by (unfold loopFuel; lia).
  rewrite !fitLoop_more_fuel by assumption. reflexivity.
Qed.

Lemma populateBlock_frame o pre b st db db' :
  finalDB (populateBlock o b st db) = Some db' ->
  Z.of_nat (length pre) + Z.of_nat (length (getPacket db')) < maxPacketSize ->
  populateBlock o b st (prependWords pre db)
  = mapDB (prependWords pre) (populateBlock o b st db).
Proof.
  unfold populateBlock.
  destruct (invalidRange (start b) (end_ b)); [reflexivity |].
  destruct (negb (start b =? lastByte st + 1)); [reflexivity |].
  intros Hfinal Hroom.
  assert (Hloop : finalDB (fitLoop (loopFuel db) o b (word st) (row st) db)
                  = Some db').
  { destruct (fitLoop (loopFuel db) o b (word st) (row st) db)
      as [[a l] d | e d |]; exact Hfinal. }
  rewrite (fitLoop_any_fuel o (loopFuel (prependWords pre db)) (loopFuel db)).
  - rewrite (fitLoop_frame o pre _ _ _ _ _ _ Hloop Hroom).
    destruct (fitLoop (loopFuel db) o b (word st) (row st) db)
      as [[a l] d | e d |]; reflexivity.
  - unfold loopFuel. lia.
  - unfold loopFuel. rewrite getPacket_prependWords, length_app. lia.
Qed.

Lemma populateBlocks_grows o bs st db db' :
  finalDB (populateBlocks o bs st db) = Some db' ->
  Z.of_nat (length (getPacket db)) <= Z.of_nat (length (getPacket db')).
Proof.
  intros Hfinal.
  destruct (populateBlocks_emits o bs st db db' Hfinal) as (nw & _ & _ & Hp & _).
  rewrite Hp, length_app. lia.
Qed.

Lemma populateBlocks_frame o pre bs : forall st db db',
  finalDB (populateBlocks o bs st db) = Some db' ->
  Z.of_nat (length pre) + Z.of_nat (length (getPacket db')) < maxPacketSize ->
  populateBlocks o bs st (prependWords pre db)
  = mapDB (prependWords pre) (populateBlocks o bs st db).
Proof.
  induction bs as [| b bs IH]; intros st db db' Hfinal Hroom.
  - reflexivity.
  - cbn [populateBlocks] in *. unfold bind in *.
    destruct (populateBlock o b st db) as [st1 db1 | e db1 |] eqn:Hrun;
      [| | discriminate].
    + pose proof (populateBlocks_grows _ _ _ _ _ Hfinal) as Hgrow.
      rewrite (populateBlock_frame o pre b st db db1), Hrun.
      * cbn [mapDB]. exact (IH _ _ _ Hfinal Hroom).
      * rewrite Hrun. reflexivity.
      * lia.
    + cbn in Hfinal. inversion Hfinal; subst.
      rewrite (populateBlock_frame o pre b st db db'), Hrun.
      * reflexivity.
      * rewrite Hrun. reflexivity.
      * exact Hroom.
Qed.

Lemma pushWord_prependWords w pre db :
  pushWord w (prependWords pre db) = mapDB (prependWords pre) (pushWord w db).
Proof.
  rewrite !pushWord_returns. cbn [mapDB].
  destruct (0 <? Z.of_nat (length w)); [| reflexivity].
  fold (withWord (prependWords pre db) w). fold (withWord db w).
  rewrite withWord_prependWords. reflexivity.
Qed.

(** X4: rendering into a store that was not cleared appends the new
    diagram after the old words: as long as the old and the new words
    together stay below [maxPacketSize], [populate] ends as it does on the
    store without the old words -- same result or error -- and leaves the
    old words followed by the words it leaves there. *)
Theorem populate_frame env ast pre db db' :
  finalDB (populate env ast db) = Some db' ->
  Z.of_nat (length pre) + Z.of_nat (length (getPacket db')) < maxPacketSize ->
  populate env ast (prependWords pre db)
  = mapDB (prependWords pre) (populate env ast db).
Proof.
  unfold populate, bind. intros Hfinal Hroom.
  destruct (populateBlocks (bitsPerRow (getConfig env)) (blocks ast) locals0 db)
    as [st db1 | e db1 |] eqn:Hrun; [| | discriminate].
  - assert (Hgrow : Z.of_nat (length (getPacket db1))
                    <= Z.of_nat (length (getPacket db'))).
    { rewrite pushWord_returns in Hfinal. cbn in Hfinal.
      inversion Hfinal; subst.
      destruct (0 <? Z.of_nat (length (word st))); [| lia].
      fold (withWord db1 (word st)). rewrite length_withWord. lia. }
    rewrite (populateBlocks_frame _ pre (blocks ast) locals0 db db1), Hrun.
    + cbn [mapDB]. apply pushWord_prependWords.
    + rewrite Hrun. reflexivity.
    + lia.
  - cbn in Hfinal. inversion Hfinal; subst.
    rewrite (populateBlocks_frame _ pre (blocks ast) locals0 db db'), Hrun.
    + reflexivity.
    + rewrite Hrun. reflexivity.
    + exact Hroom.
Qed.

Lemma populate_frame_witness :
  populate envEight (diagram tenBits)
    (prependWords [[mkBlock 0 7 "old"]] initialDB)
  = mapDB (prependWords [[mkBlock 0 7 "old"]])
      (populate envEight (diagram tenBits) initialDB).
Proof.
  apply (populate_frame envEight (diagram tenBits) [[mkBlock 0 7 "old"]]
           initialDB
           (withWord (withWord initialDB [mkBlock 0 3 "A"; mkBlock 4 7 "B"])
              [mkBlock 8 9 "B"])).
  - reflexivity.
  - vm_compute. reflexivity.
Defined.

(** ** Validation is exact *)

Lemma laidOut_guard_true o L e a l db :
  0 < o -> laidOut o L e a l db ->
  Z.of_nat (length (getPacket db)) < maxPacketSize ->
  loopGuard o a db = true.
Proof.
  intros Ho Hinv Hlen. destruct (loopGuard o a db) eqn:G; [reflexivity |].
  destruct (laidOut_guard _ _ _ _ _ _ Ho Hinv G) as [Habs _]. lia.
Qed.

Lemma populateBlocks_returns_valid o (Ho : 0 < o) bs : forall st db L st' db',
  laidOut o L (lastByte st) (word st) (row st) db ->
  populateBlocks o bs st db = Return st' db' ->
  Z.of_nat (length (getPacket db')) < maxPacketSize ->
  contiguousFrom (lastByte st + 1) bs = true.
Proof.
  induction bs as [| b bs IH]; intros st db L st' db' Hinv Hrun Hroom.
  - reflexivity.
  - cbn [populateBlocks] in Hrun. unfold bind in Hrun.
    destruct (populateBlock o b st db) as [st1 db1 | e db1 |] eqn:Hb;
      try discriminate.
    assert (Hgrow1 : Z.of_nat (length (getPacket db1))
                     <= Z.of_nat (length (getPacket db'))).
    { apply (populateBlocks_grows o bs st1 db1). rewrite Hrun. reflexivity. }
    assert (Hgrow0 : Z.of_nat (length (getPacket db))
                     <= Z.of_nat (length (getPacket db1))).
    { destruct (populateBlock_emits _ _ _ _ _ _ Hb) as (nw & _ & Hp & _).
      rewrite Hp, length_app. lia. }
    pose proof (populateBlock_outcome o b st db) as Hout.
    rewrite Hb in Hout. cbn in Hout.
    destruct Hout as (_ & _ & _ & Hlast & Hrange & Hstart).
    assert (Hwf : start b <= endOrStart (start b) (end_ b)).
    { destruct (Z.le_gt_cases (start b) (endOrStart (start b) (end_ b)))
        as [Hle | Hgt]; [exact Hle | exfalso].
      unfold populateBlock in Hb. rewrite Hrange in Hb.
      destruct (Z.eqb_spec (start b) (lastByte st + 1)); [| contradiction].
      cbn [negb] in Hb.
      assert (Hfuel : exists n, loopFuel db = S n).
      { unfold loopFuel. exists (Nat.pred (Z.to_nat (maxPacketSize
                 - Z.of_nat (length (getPacket db))))). lia. }
      destruct Hfuel as [n Hn]. rewrite Hn in Hb.
      rewrite fitLoop_throw in Hb; [discriminate | | lia].
      apply (laidOut_guard_true o L (lastByte st) (word st) (row st) db);
        [exact Ho | exact Hinv | lia]. }
    apply contiguousFrom_cons. split; [exact Hstart |]. split; [exact Hwf |].
    destruct (populateBlock_layout o Ho b st db L Hstart Hwf (or_introl Hinv))
      as (st1' & db1' & Hb' & _ & Hinv1).
    rewrite Hb in Hb'. inversion Hb'; subst st1' db1'.
    destruct Hinv1 as [Hlaid | Htrunc].
    + rewrite <- Hlast. exact (IH _ _ _ _ _ Hlaid Hrun Hroom).
    + destruct Htrunc as (Hlen & _). lia.
Qed.

(** X5: with a positive row width, [populate] on a cleared store returns
    with fewer than [maxPacketSize] words stored only if the input is valid:
    the first block starts at 0, every block starts right after the previous
    end, and no end (defaulted to the start) is before its start. *)
Theorem populate_returns_only_valid env ast db' :
  0 < bitsPerRow (getConfig env) ->
  populate env ast initialDB = Return tt db' ->
  Z.of_nat (length (getPacket db')) < maxPacketSize ->
  validInput (blocks ast) = true.
Proof.
  intros Ho Hrun Hroom. unfold populate, bind in Hrun.
  destruct (populateBlocks (bitsPerRow (getConfig env)) (blocks ast) locals0
              initialDB) as [st db1 | e db1 |] eqn:Hblocks; try discriminate.
  apply (populateBlocks_returns_valid _ Ho (blocks ast) locals0 initialDB []
           st db1).
  - apply laidOut_initial. exact Ho.
  - exact Hblocks.
  - rewrite pushWord_returns in Hrun. inversion Hrun; subst.
    destruct (0 <? Z.of_nat (length (word st))); [| exact Hroom].
    fold (withWord db1 (word st)) in Hroom.
    rewrite length_withWord in Hroom. lia.
Qed.

Lemma populate_returns_only_valid_witness : validInput tenBits = true.
Proof.
  apply (populate_returns_only_valid envEight (diagram tenBits)
           (withWord (withWord initialDB [mkBlock 0 3 "A"; mkBlock 4 7 "B"])
              [mkBlock 8 9 "B"])).
  - reflexivity.
  - reflexivity.
  - vm_compute. reflexivity.
Defined.

(** ** How many rows, and where their sub-blocks lie *)

(** X6: for a valid input on a cleared store and a positive row width,
    [populate] stores [ceil(totalBits / bitsPerRow)] words, or
    [maxPacketSize] words if that is fewer. *)
Theorem populate_row_count env ast :
  0 < bitsPerRow (getConfig env) ->
  validInput (blocks ast) = true ->
  exists db',
    populate env ast initialDB = Return tt db'
    /\ Z.of_nat (length (getPacket db'))
       = Z.min ((totalBits (blocks ast) + bitsPerRow (getConfig env) - 1)
                / bitsPerRow (getConfig env))
               maxPacketSize.
Proof.
  intros Ho Hvalid.
  destruct (populate_layout env ast Ho Hvalid) as (st & db1 & _ & Hrun & Hinv).
  set (o := bitsPerRow (getConfig env)) in *.
  set (T := totalBits (blocks ast)) in *.
  eexists. split; [exact Hrun |].
  destruct Hinv as [Hlaid | Htrunc].
  - destruct Hlaid as (Hlen & _ & Hchain & Hlt & [Hceil Hfull] & _).
    replace (T - 1 + 1) with T in * by lia.
    pose proof (chain_length _ _ _ Hchain) as Hge.
    destruct (word st) as [| b w] eqn:Hw.
    + cbn [chain] in Hchain.
      assert (Hdiv : (T + o - 1) / o = row st - 1)
        by (apply div_between; lia).
      rewrite Hdiv. lia.
    + cbn [length] in Hge.
      assert (Hdiv : (T + o - 1) / o = row st) by (apply div_between; lia).
      rewrite Hdiv, length_withWord.
      assert (Z.of_nat (length (getPacket db1)) <> maxPacketSize).
      { intros Habs. specialize (Hfull Habs). discriminate. }
      lia.
  - destruct Htrunc as (Hlen & _ & Hnil & Hpast). rewrite Hnil.
    assert (Hbig : maxPacketSize <= (T + o - 1) / o).
    { apply Z.div_le_lower_bound; lia. }
    lia.
Qed.

Lemma populate_row_count_witness :
  exists db',
    populate envEight (diagram tenBits) initialDB = Return tt db'
    /\ Z.of_nat (length (getPacket db')) = 2.
Proof.
  apply (populate_row_count envEight (diagram tenBits)); reflexivity.
Defined.

Lemma chain_le lo w next : chain lo w next -> lo <= next.
Proof. intros H. apply chain_length in H. lia. Qed.

Lemma chain_within lo w next :
  chain lo w next ->
  Forall (fun b => lo <= bstart b /\ bstart b <= bend b /\ bend b < next) w.
Proof.
  revert lo. induction w as [| b w IH]; intros lo H; cbn [chain] in H.
  - constructor.
  - destruct H as (H1 & H2 & H3).
    pose proof (chain_le _ _ _ H3) as Hle.
    constructor; [lia |].
    eapply Forall_impl; [| exact (IH _ H3)].
    cbn. intros x Hx. lia.
Qed.

Lemma rowsFrom_rowsPartial o i p : rowsFrom o i p -> rowsPartial o i p.
Proof.
  revert i. induction p as [| w p IH]; intros i H; cbn in *; [exact I |].
  destruct H as [Hw Hp]. split; [| auto].
  exists ((i + 1) * o). split; [exact Hw | lia].
Qed.

Lemma rowsPartial_snoc o i p w next :
  rowsPartial o i p ->
  chain ((i + Z.of_nat (length p)) * o) w next ->
  next <= (i + Z.of_nat (length p) + 1) * o ->
  rowsPartial o i (p ++ [w]).
Proof.
  revert i. induction p as [| w0 p IH]; intros i Hp Hw Hle;
    cbn [rowsPartial app length] in *.
  - replace (i + Z.of_nat 0) with i in * by lia.
    split; [| exact I]. exists next. auto.
  - destruct Hp as [H0 Hp]. split; [exact H0 |].
    apply IH; [exact Hp | |].
    + replace (i + 1 + Z.of_nat (length p))
        with (i + Z.of_nat (S (length p))) by lia.
      exact Hw.
    + replace (i + 1 + Z.of_nat (length p) + 1)
        with (i + Z.of_nat (S (length p)) + 1) by lia.
      exact Hle.
Qed.

Lemma rowsPartial_nth o p : forall i (k : nat) w,
  rowsPartial o i p ->
  nth_error p k = Some w ->
  exists next,
    chain ((i + Z.of_nat k) * o) w next /\ next <= (i + Z.of_nat k + 1) * o.
Proof.
  induction p as [| w0 p IH]; intros i k w Hp Hk.
  - destruct k; discriminate.
  - cbn [rowsPartial] in Hp. destruct Hp as [H0 Hp].
    destruct k as [| k]; cbn [nth_error] in Hk.
    + inversion Hk; subst. replace (i + Z.of_nat 0) with i by lia. exact H0.
    + destruct (IH (i + 1) k w Hp Hk) as (next & Hc & Hle).
      exists next.
      replace (i + Z.of_nat (S k)) with (i + 1 + Z.of_nat k) by lia.
      auto.
Qed.

(** Valid input on a cleared store: the words stored sit in the rows 0, 1,
    ... in order. *)
Lemma populate_rowsPartial env ast :
  0 < bitsPerRow (getConfig env) ->
  validInput (blocks ast) = true ->
  exists db',
    populate env ast initialDB = Return tt db'
    /\ rowsPartial (bitsPerRow (getConfig env)) 0 (getPacket db').
Proof.
  intros Ho Hvalid.
  destruct (populate_layout env ast Ho Hvalid) as (st & db1 & _ & Hrun & Hinv).
  eexists. split; [exact Hrun |].
  destruct Hinv as [Hlaid | Htrunc].
  - destruct Hlaid as (Hlen & Hrows & Hchain & Hlt & _).
    apply rowsFrom_rowsPartial in Hrows.
    destruct (word st) as [| b w]; [exact Hrows |].
    rewrite getPacket_withWord.
    eapply rowsPartial_snoc; [exact Hrows | |].
    + replace (0 + Z.of_nat (length (getPacket db1))) with (row st - 1) by lia.
      exact Hchain.
    + lia.
  - destruct Htrunc as (_ & Hrows & Hnil & _). rewrite Hnil.
    apply rowsFrom_rowsPartial. exact Hrows.
Qed.

(** X7: for a valid input on a cleared store and a positive row width, the
    word stored at index [i] lies in row [i]: each of its sub-blocks has
    [i * bitsPerRow <= start <= end < (i + 1) * bitsPerRow], its sub-blocks
    cover, without gap or overlap, the bits from the first bit of the row
    on, and it holds at least one and at most [bitsPerRow] sub-blocks. *)
Theorem populate_rows_in_window env ast :
  0 < bitsPerRow (getConfig env) ->
  validInput (blocks ast) = true ->
  exists db',
    populate env ast initialDB = Return tt db'
    /\ forall (i : nat) (w : Word),
         nth_error (getPacket db') i = Some w ->
         Forall (fun b =>
                   Z.of_nat i * bitsPerRow (getConfig env) <= bstart b
                   /\ bstart b <= bend b
                   /\ bend b < (Z.of_nat i + 1) * bitsPerRow (getConfig env)) w
         /\ flat_map blockBits w
            = bitRange (Z.of_nat i * bitsPerRow (getConfig env))
                (Z.of_nat i * bitsPerRow (getConfig env) + wordWidth w - 1)
         /\ 1 <= Z.of_nat (length w) <= bitsPerRow (getConfig env).
Proof.
  intros Ho Hvalid.
  destruct (populate_rowsPartial env ast Ho Hvalid) as (db' & Hrun & Hrows).
  exists db'. split; [exact Hrun |].
  intros i w Hnth.
  destruct (rowsPartial_nth _ _ 0 i w Hrows Hnth) as (next & Hchain & Hle).
  replace (0 + Z.of_nat i) with (Z.of_nat i) in * by lia.
  set (o := bitsPerRow (getConfig env)) in *.
  split; [| split].
  - eapply Forall_impl; [| exact (chain_within _ _ _ Hchain)].
    cbn. intros b Hb. lia.
  - rewrite (chain_bits _ _ _ Hchain), (chain_width _ _ _ Hchain).
    f_equal. lia.
  - pose proof (chain_length _ _ _ Hchain) as Hlen.
    split; [| lia].
    pose proof (populate_outcome env ast initialDB) as H.
    rewrite Hrun in H. cbn [outcomeSat] in H. destruct H as (_ & Hne & _).
    assert (Hw : w <> []).
    { assert (Hall : nonEmptyWords db') by (apply Hne; constructor).
      unfold nonEmptyWords in Hall. rewrite Forall_forall in Hall.
      apply Hall. eapply nth_error_In. exact Hnth. }
    destruct w; [contradiction | cbn [length]; lia].
Qed.

Lemma populate_rows_in_window_witness :
  exists db',
    populate envEight (diagram threeFields) initialDB = Return tt db'
    /\ forall (i : nat) (w : Word),
         nth_error (getPacket db') i = Some w ->
         Forall (fun b =>
                   Z.of_nat i * 8 <= bstart b
                   /\ bstart b <= bend b
                   /\ bend b < (Z.of_nat i + 1) * 8) w
         /\ flat_map blockBits w
            = bitRange (Z.of_nat i * 8) (Z.of_nat i * 8 + wordWidth w - 1)
         /\ 1 <= Z.of_nat (length w) <= 8.
Proof.
  apply (populate_rows_in_window envEight (diagram threeFields)); reflexivity.
Defined.

(** ** The splitter on a well-formed block *)

(** X8: on a block whose end (defaulted to its start) is not before its
    start, the splitter never fails; the part it returns keeps the start
    and the label and ends before bit [row * bitsPerRow]; a remainder, if
    any, starts exactly at that bit, right after the part, keeps the end and
    the label and is itself well-formed; the part is well-formed exactly
    when the block starts before that bit; and when the block starts at or
    before that bit, the bits of the part followed by the bits of the
    remainder are the bits of the block. *)
Theorem getNextFittingBlock_contract (t : PacketBlock) (row o : Z) :
  start t <= endOrStart (start t) (end_ t) ->
  exists part rest,
    getNextFittingBlock t row o = inr (part, rest)
    /\ bstart part = start t
    /\ blabel part = label t
    /\ bend part < row * o
    /\ (bstart part <= bend part <-> start t < row * o)
    /\ match rest with
       | None => bend part = endOrStart (start t) (end_ t)
       | Some next =>
           start next = row * o
           /\ bend part + 1 = start next
           /\ end_ next = Some (endOrStart (start t) (end_ t))
           /\ label next = label t
           /\ start next <= endOrStart (start t) (end_ t)
       end
    /\ (start t <= row * o ->
        blockBits part ++ restBits rest = inputBits t).
Proof.
  intros Hwf.
  destruct (Z.le_gt_cases (endOrStart (start t) (end_ t) + 1) (row * o))
    as [Hfit | Hcut].
  - rewrite getNextFittingBlock_fits by assumption.
    eexists _, _. split; [reflexivity |].
    cbn [bstart bend blabel restBits]. repeat split; try lia.
    intros _. rewrite app_nil_r. reflexivity.
  - rewrite getNextFittingBlock_cuts by lia.
    eexists _, _. split; [reflexivity |].
    cbn [bstart bend blabel start end_ label restBits].
    repeat split; try lia.
    intros Hs. unfold blockBits, inputBits.
    cbn [bstart bend start end_ endOrStart].
    symmetry.
    replace (row * o) with (row * o - 1 + 1) at 2 by lia.
    apply bitRange_split; lia.
Qed.

Lemma getNextFittingBlock_contract_witness :
  exists part rest,
    getNextFittingBlock (field 4 11 "B") 1 8 = inr (part, rest)
    /\ bstart part = 4
    /\ blabel part = "B"
    /\ bend part < 1 * 8
    /\ (bstart part <= bend part <-> 4 < 1 * 8)
    /\ match rest with
       | None => bend part = 11
       | Some next =>
           start next = 1 * 8
           /\ bend part + 1 = start next
           /\ end_ next = Some 11
           /\ label next = "B"
           /\ start next <= 11
       end
    /\ (4 <= 1 * 8 -> blockBits part ++ restBits rest = inputBits (field 4 11 "B")).
Proof.
  apply (getNextFittingBlock_contract (field 4 11 "B") 1 8).
  cbn. discriminate.
Defined.

(** ** Row widths that are not positive *)

Lemma populateBlocks_no_room o bs : o < -1 -> forall st db,
  word st = [] ->
  outcomeSat (populateBlocks o bs st db)
    (fun st' db' => db' = db /\ word st' = [])
    (fun _ db' => db' = db).
Proof.
  intros Ho. induction bs as [| b bs IH]; intros st db Hnil.
  - cbn. auto.
  - cbn [populateBlocks]. unfold bind.
    assert (Hb : populateBlock o b st db
                 = Return {| lastByte := endOrStart (start b) (end_ b);
                             word := []; row := row st |} db
                 \/ exists e, populateBlock o b st db = Throw e db).
    { unfold populateBlock.
      destruct (invalidRange (start b) (end_ b)); [right; eexists; reflexivity |].
      destruct (negb (start b =? lastByte st + 1));
        [right; eexists; reflexivity |].
      left. rewrite fitLoop_exit; [rewrite Hnil; reflexivity |].
      unfold loopGuard. rewrite Hnil. cbn [length].
      destruct (Z.leb_spec (Z.of_nat 0) (o + 1)); [lia | reflexivity]. }
    destruct Hb as [Hb | [e Hb]]; rewrite Hb.
    + apply IH. reflexivity.
    + cbn. reflexivity.
Qed.

(** X9: with a row width below -1 the inner loop never runs: whatever the
    input and the store, [populate] leaves the store exactly as it found it,
    and on a valid input it returns without any error -- the diagram is
    dropped silently. *)
Theorem populate_negative_row_width env ast db :
  bitsPerRow (getConfig env) < -1 ->
  (forall db', finalDB (populate env ast db) = Some db' -> db' = db)
  /\ (validInput (blocks ast) = true -> populate env ast db = Return tt db).
Proof.
  intros Ho.
  pose proof (populateBlocks_no_room _ (blocks ast) Ho locals0 db eq_refl) as H.
  split.
  - intros db' Hfinal. unfold populate, bind in Hfinal.
    destruct (populateBlocks _ (blocks ast) locals0 db) as [st d | e d |];
      cbn in H; [| | contradiction].
    + destruct H as [-> Hnil]. rewrite Hnil, pushWord_nil in Hfinal.
      inversion Hfinal. reflexivity.
    + subst d. inversion Hfinal. reflexivity.
  - intros Hvalid.
    destruct (populateBlocks_valid_prefix (bitsPerRow (getConfig env))
                (blocks ast) locals0 db Hvalid) as (st & d & Hrun & _).
    unfold populate, bind. rewrite Hrun in *. cbn in H.
    destruct H as [-> Hnil]. rewrite Hnil. apply pushWord_nil.
Qed.

Lemma populate_negative_row_width_witness :
  populate (envRows (-5)) (diagram tenBits) initialDB = Return tt initialDB.
Proof.
  destruct (populate_negative_row_width (envRows (-5)) (diagram tenBits)
              initialDB) as [_ H].
  - reflexivity.
  - apply H. reflexivity.
Defined.

(** With a row width of 0 or -1 every pass cuts the block at a boundary at
    or before its start and pushes a row holding one sub-block of no bits;
    only the ceiling ends the loop. *)
Lemma fitLoop_flat_rows o fuel : -1 <= o <= 0 -> forall blk l db,
  1 <= l ->
  l * o <= start blk ->
  start blk <= endOrStart (start blk) (end_ blk) ->
  maxPacketSize - Z.of_nat (length (getPacket db)) <= Z.of_nat fuel ->
  Z.of_nat (length (getPacket db)) <= maxPacketSize ->
  Forall (fun b => bend b < bstart b) (subBlocks db) ->
  exists l' db',
    fitLoop fuel o blk [] l db = Return ([], l') db'
    /\ Z.of_nat (length (getPacket db')) = maxPacketSize
    /\ Forall (fun b => bend b < bstart b) (subBlocks db').
Proof.
  intros Ho. induction fuel as [| fuel IH];
    intros blk l db Hl Hlo Hwf Hfuel Hlen Hall.
  - exists l, db. rewrite fitLoop_exit.
    + split; [reflexivity |]. split; [lia | exact Hall].
    + unfold loopGuard. apply andb_false_iff. right. apply Z.ltb_ge. lia.
  - destruct (loopGuard o [] db) eqn:G.
    2:{ exists l, db. rewrite fitLoop_exit by assumption.
        split; [reflexivity |]. split; [| exact Hall].
        unfold loopGuard in G. apply andb_false_iff in G.
        destruct G as [G | G].
        - apply Z.leb_gt in G. cbn [length] in G. lia.
        - apply Z.ltb_ge in G. lia. }
    pose proof G as G'. apply loopGuard_true_iff in G'. destruct G' as [_ Hroom].
    rewrite fitLoop_cuts by (assumption || lia). cbn [app].
    apply IH.
    + lia.
    + cbn [start]. nia.
    + cbn [start end_ endOrStart]. lia.
    + rewrite length_withWord. lia.
    + rewrite length_withWord. lia.
    + rewrite subBlocks_withWord. apply Forall_app. split; [exact Hall |].
      constructor; [| constructor]. cbn [bstart bend]. lia.
Qed.

Lemma populateBlocks_at_ceiling o bs : forall st db,
  Z.of_nat (length (getPacket db)) = maxPacketSize ->
  word st = [] ->
  contiguousFrom (lastByte st + 1) bs = true ->
  exists st', populateBlocks o bs st db = Return st' db /\ word st' = [].
Proof.
  induction bs as [| b bs IH]; intros st db Hlen Hnil Hvalid.
  - exists st. split; [reflexivity | exact Hnil].
  - apply contiguousFrom_cons in Hvalid. destruct Hvalid as (H1 & H2 & H3).
    cbn [populateBlocks]. unfold bind, populateBlock.
    rewrite invalidRange_valid by assumption.
    destruct (Z.eqb_spec (start b) (lastByte st + 1)); [| contradiction].
    cbn [negb]. rewrite fitLoop_exit.
    2:{ unfold loopGuard. apply andb_false_iff. right. apply Z.ltb_ge. lia. }
    rewrite Hnil. apply IH; [exact Hlen | reflexivity | exact H3].
Qed.

(** X10: with a row width of 0 or -1, a valid input that is not empty fills
    a cleared store up to the ceiling: [populate] returns without error
    with exactly [maxPacketSize] words stored, and every sub-block in them
    has its end before its start, so that no bit of the input is laid
    out. *)
Theorem populate_flat_rows env ast :
  -1 <= bitsPerRow (getConfig env) <= 0 ->
  validInput (blocks ast) = true ->
  blocks ast <> [] ->
  exists db',
    populate env ast initialDB = Return tt db'
    /\ Z.of_nat (length (getPacket db')) = maxPacketSize
    /\ Forall (fun b => bend b < bstart b) (subBlocks db').
Proof.
  intros Ho Hvalid Hne. unfold populate, bind.
  set (o := bitsPerRow (getConfig env)) in *.
  destruct (blocks ast) as [| b bs]; [contradiction |].
  apply contiguousFrom_cons in Hvalid. destruct Hvalid as (H1 & H2 & H3).
  destruct (fitLoop_flat_rows o (loopFuel initialDB) Ho b 1 initialDB)
    as (l' & db1 & Hloop & Hlen & Hall); try lia.
  { unfold loopFuel. lia. }
  { unfold maxPacketSize. cbn. lia. }
  { constructor. }
  destruct (populateBlocks_at_ceiling o bs
              {| lastByte := endOrStart (start b) (end_ b);
                 word := []; row := l' |} db1 Hlen eq_refl H3)
    as (st' & Hrest & Hnil).
  exists db1. cbn [populateBlocks]. unfold bind, populateBlock.
  rewrite invalidRange_valid by assumption.
  cbn [locals0 lastByte word row].
  destruct (Z.eqb_spec (start b) (-1 + 1)); [| lia].
  cbn [negb]. rewrite Hloop, Hrest, Hnil.
  split; [apply pushWord_nil |]. split; assumption.
Qed.

Lemma populate_flat_rows_witness :
  exists db',
    populate (envRows 0) (diagram tenBits) initialDB = Return tt db'
    /\ Z.of_nat (length (getPacket db')) = maxPacketSize
    /\ Forall (fun b => bend b < bstart b) (subBlocks db').
Proof.
  apply (populate_flat_rows (envRows 0) (diagram tenBits)).
  - split; cbn; discriminate.
  - reflexivity.
  - discriminate.
Defined.

(** ** The drawing of a laid-out store *)

Lemma rects_flat_map {A} (f : A -> list SvgElement) (l : list A) :
  rects (flat_map f l) = flat_map (fun x => rects (f x)) l.
Proof.
  unfold rects. induction l as [| x l IH]; [reflexivity |].
  cbn [flat_map]. rewrite flat_map_app, IH. reflexivity.
Qed.

Lemma rem_in_row (s o i : Z) :
  0 < o -> 0 <= i -> i * o <= s < (i + 1) * o -> Z.rem s o = s - i * o.
Proof.
  intros Ho Hi Hs. rewrite Z.rem_mod_nonneg by nia.
  symmetry. apply (Z.mod_unique s o i (s - i * o)); lia.
Qed.

(** The rectangles of a word that sits in row [i]. *)
Lemma drawWord_rects_in_row cfg (i : Z) w next x y wd h :
  0 < bitsPerRow cfg -> 0 <= bitWidth cfg -> 0 <= paddingX cfg ->
  0 <= i ->
  chain (i * bitsPerRow cfg) w next ->
  next <= (i + 1) * bitsPerRow cfg ->
  In (x, y, wd, h) (rects (drawWord w i cfg)) ->
  1 <= x
  /\ x + wd <= bitWidth cfg * bitsPerRow cfg + 1
  /\ y = i * (rowHeight cfg + paddingY cfg) + paddingY cfg
  /\ h = rowHeight cfg.
Proof.
  intros Ho Hbw Hpx Hi Hchain Hnext Hin.
  unfold drawWord in Hin. rewrite rects_flat_map in Hin.
  apply in_flat_map in Hin. destruct Hin as (b & Hb & Hin).
  rewrite drawBlock_rects in Hin. destruct Hin as [Heq | []].
  inversion Heq; subst. clear Heq.
  pose proof (chain_within _ _ _ Hchain) as Hall.
  rewrite Forall_forall in Hall. specialize (Hall b Hb).
  rewrite (rem_in_row (bstart b) (bitsPerRow cfg) i) by lia.
  repeat split; nia.
Qed.

Lemma drawWords_In cfg ws : forall r g,
  In g (drawWords cfg r ws) ->
  exists (k : nat) w,
    nth_error ws k = Some w /\ g = drawWord w (r + Z.of_nat k) cfg.
Proof.
  induction ws as [| w ws IH]; intros r g Hin; cbn [drawWords] in Hin.
  - contradiction.
  - destruct Hin as [<- | Hin].
    + exists 0%nat, w. split; [reflexivity |].
      replace (r + Z.of_nat 0) with r by lia. reflexivity.
    + destruct (IH _ _ Hin) as (k & w' & Hk & ->).
      exists (S k), w'. split; [exact Hk |]. f_equal. lia.
Qed.

(** X11: for a valid input laid out on a cleared store, with a positive
    row width and no negative size in the config, every rectangle [draw]
    emits lies inside the view box it announces: [1 <= x],
    [x + width < svgWidth], [0 <= y] and [y + height <= svgHeight]. *)
Theorem draw_rects_inside_view_box env ast diagramTitle :
  0 < bitsPerRow (getConfig env) ->
  0 <= bitWidth (getConfig env) ->
  0 <= rowHeight (getConfig env) ->
  0 <= paddingX (getConfig env) ->
  0 <= paddingY (getConfig env) ->
  validInput (blocks ast) = true ->
  exists db',
    populate env ast initialDB = Return tt db'
    /\ forall g x y w h,
         In g (groups (draw env diagramTitle db')) ->
         In (x, y, w, h) (rects g) ->
         1 <= x
         /\ x + w < svgWidth (draw env diagramTitle db')
         /\ 0 <= y
         /\ y + h <= svgHeight (draw env diagramTitle db').
Proof.
  intros Ho Hbw Hrh Hpx Hpy Hvalid.
  destruct (populate_rowsPartial env ast Ho Hvalid) as (db' & Hrun & Hrows).
  exists db'. split; [exact Hrun |].
  intros g x y w h Hg Hr. unfold draw in *. cbn [groups svgWidth svgHeight] in *.
  set (cfg := getConfig env) in *.
  destruct (drawWords_In _ _ _ _ Hg) as (k & wd & Hk & ->).
  destruct (rowsPartial_nth _ _ 0 k wd Hrows Hk) as (next & Hchain & Hnext).
  assert (Hlt : (k < length (getPacket db'))%nat).
  { apply nth_error_Some. rewrite Hk. discriminate. }
  destruct (drawWord_rects_in_row cfg (0 + Z.of_nat k) wd next x y w h)
    as (Hx & Hxw & Hy & Hh); try assumption; try lia.
  subst y h.
  assert (Hsub : (if (diagramTitle =? "")%string then rowHeight cfg else 0)
                 <= rowHeight cfg)
    by (destruct (diagramTitle =? "")%string; lia).
  repeat split; nia.
Qed.

Lemma draw_rects_inside_view_box_witness :
  exists db',
    populate envEight (diagram threeFields) initialDB = Return tt db'
    /\ forall g x y w h,
         In g (groups (draw envEight "Header" db')) ->
         In (x, y, w, h) (rects g) ->
         1 <= x
         /\ x + w < svgWidth (draw envEight "Header" db')
         /\ 0 <= y
         /\ y + h <= svgHeight (draw envEight "Header" db').
Proof.
  apply (draw_rects_inside_view_box envEight (diagram threeFields) "Header");
    try reflexivity; cbn; discriminate.
Defined.

(** X12: two sub-blocks that follow one another in the same row are drawn
    side by side: the second rectangle starts [paddingX] pixels after the
    right edge of the first, at the same [y] and with the same height. *)
Theorem drawBlock_side_by_side cfg wordY (i : Z) b1 b2 :
  0 < bitsPerRow cfg ->
  0 <= i ->
  i * bitsPerRow cfg <= bstart b1 ->
  bstart b2 = bend b1 + 1 ->
  bstart b1 <= bstart b2 < (i + 1) * bitsPerRow cfg ->
  exists x1 w1 x2 w2,
    rects (drawBlock cfg wordY b1) = [(x1, wordY, w1, rowHeight cfg)]
    /\ rects (drawBlock cfg wordY b2) = [(x2, wordY, w2, rowHeight cfg)]
    /\ x2 = x1 + w1 + paddingX cfg.
Proof.
  intros Ho Hi Hlo Hadj Hhi.
  rewrite !drawBlock_rects. eexists _, _, _, _.
  split; [reflexivity |]. split; [reflexivity |].
  rewrite (rem_in_row (bstart b1) (bitsPerRow cfg) i) by lia.
  rewrite (rem_in_row (bstart b2) (bitsPerRow cfg) i) by lia.
  nia.
Qed.

Lemma drawBlock_side_by_side_witness :
  exists x1 w1 x2 w2,
    rects (drawBlock (getConfig envEight) 62 (mkBlock 8 11 "B"))
    = [(x1, 62, w1, 32)]
    /\ rects (drawBlock (getConfig envEight) 62 (mkBlock 12 15 "C"))
       = [(x2, 62, w2, 32)]
    /\ x2 = x1 + w1 + 5.
Proof.
  apply (drawBlock_side_by_side (getConfig envEight) 62 1
           (mkBlock 8 11 "B") (mkBlock 12 15 "C")).
  - reflexivity.
  - discriminate.
  - cbn. discriminate.
  - reflexivity.
  - split; cbn; [discriminate | reflexivity].
Defined.

Lemma bitNumberYs_drawBlock cfg y b q :
  In q (bitNumberYs (drawBlock cfg y b)) -> q = inject_Z (y - 2).
Proof.
  unfold drawBlock, bitNumberYs.
  destruct (showBits cfg); cbn [negb];
    [destruct (bend b =? bstart b) |]; cbn; intuition congruence.
Qed.

Lemma bitNumberYs_flat_map {A} (f : A -> list SvgElement) (l : list A) :
  bitNumberYs (flat_map f l) = flat_map (fun x => bitNumberYs (f x)) l.
Proof.
  unfold bitNumberYs. induction l as [| x l IH]; [reflexivity |].
  cbn [flat_map]. rewrite flat_map_app, IH. reflexivity.
Qed.

(** X13: when the merged config asks for bit numbers and its [paddingY] is
    not negative, [getConfig] leaves room for them: every bit number that
    [drawWord] writes for row [r] has its baseline 2 pixels above the top of
    that row's rectangles and at least 8 pixels below the bottom of the
    rectangles of row [r - 1] (the top of the drawing for row 0). *)
Theorem bit_numbers_fit_in_padding env w (r : Z) q :
  let t := cleanAndMerge env
             (spread (defaultConfig_packet env) (siteConfig_packet env)) in
  let cfg := getConfig env in
  showBits t = true ->
  0 <= paddingY t ->
  In q (bitNumberYs (drawWord w r cfg)) ->
  exists z,
    q = inject_Z z
    /\ z + 2 = r * (rowHeight cfg + paddingY cfg) + paddingY cfg
    /\ r * (rowHeight cfg + paddingY cfg) + 8 <= z.
Proof.
  intros t cfg Hshow Hpad Hin.
  assert (Hcfg : paddingY cfg = paddingY t + 10).
  { unfold cfg, getConfig. fold t. rewrite Hshow. reflexivity. }
  unfold drawWord in Hin. rewrite bitNumberYs_flat_map in Hin.
  apply in_flat_map in Hin. destruct Hin as (b & Hb & Hq).
  apply bitNumberYs_drawBlock in Hq.
  eexists. split; [exact Hq |]. split; lia.
Qed.

Lemma bit_numbers_fit_in_padding_witness :
  exists z,
    inject_Z 60 = inject_Z z
    /\ z + 2 = 1 * (rowHeight (getConfig envEight)
                    + paddingY (getConfig envEight))
               + paddingY (getConfig envEight)
    /\ 1 * (rowHeight (getConfig envEight) + paddingY (getConfig envEight)) + 8
       <= z.
Proof.
  apply (bit_numbers_fit_in_padding envEight [mkBlock 8 15 "A"] 1 (inject_Z 60)).
  - reflexivity.
  - cbn. discriminate.
  - left. reflexivity.
Defined.

(** ** The store under any sequence of calls *)

Lemma runCalls_invariant cs : forall db,
  defaultPacketData db = {| packet := [] |} ->
  nonEmptyWords db ->
  exists db',
    runCalls cs db = Some db'
    /\ defaultPacketData db' = {| packet := [] |}
    /\ nonEmptyWords db'.
Proof.
  induction cs as [| c cs IH]; intros db Hn Hne.
  - exists db. auto.
  - cbn [runCalls]. destruct c as [w | | env ast]; cbn [runCall].
    + rewrite pushWord_returns. cbn [finalDB]. apply IH.
      * destruct (0 <? Z.of_nat (length w)); exact Hn.
      * destruct (Z.ltb_spec 0 (Z.of_nat (length w))) as [Hpos | _];
          [| exact Hne].
        unfold nonEmptyWords in *. cbn. apply Forall_app.
        split; [exact Hne |]. constructor; [| constructor].
        intros Hnil. rewrite Hnil in Hpos. cbn in Hpos. lia.
    + cbn [clear finalDB]. apply IH; [exact Hn |].
      unfold nonEmptyWords, getPacket. cbn. rewrite Hn. constructor.
    + pose proof (populate_outcome env ast db) as H.
      destruct (populate env ast db) as [[] d | e d |];
        cbn in H; [| | contradiction]; cbn [finalDB];
        destruct H as (Hn' & Hne' & _); apply IH; auto; congruence.
Qed.

(** X14: whatever calls a client makes on a fresh store, in whatever order
    -- [pushWord] with any row, [clear], [populate] with any config and
    input, including runs that throw -- every call ends, no stored word is
    ever empty, the template is never written to, and a [clear] at the end
    gives back the fresh store. *)
Theorem runCalls_keep_store_sound (cs : list Call) :
  exists db',
    runCalls cs initialDB = Some db'
    /\ nonEmptyWords db'
    /\ defaultPacketData db' = {| packet := [] |}
    /\ clear db' = Return tt initialDB.
Proof.
  destruct (runCalls_invariant cs initialDB) as (db' & Hrun & Hn & Hne).
  - reflexivity.
  - constructor.
  - exists db'. split; [exact Hrun |]. split; [exact Hne |].
    split; [exact Hn |]. unfold clear. rewrite Hn. reflexivity.
Qed.

(** ** What an error leaves in the store *)

(** X15: when [populate], on a cleared store and with a positive row
    width, stops at a block that fails the range check or the start check
    after a valid prefix, the store holds the full rows of the prefix and
    nothing else: every stored word has width [bitsPerRow], there are
    [floor(totalBits prefix / bitsPerRow)] of them (at most
    [maxPacketSize]), and the bits of the prefix past the last full row are
    not stored. *)
Theorem populate_error_keeps_full_rows env ast pre b post :
  0 < bitsPerRow (getConfig env) ->
  blocks ast = pre ++ b :: post ->
  validInput pre = true ->
  invalidRange (start b) (end_ b) = true \/ start b <> totalBits pre ->
  exists e db',
    populate env ast initialDB = Throw e db'
    /\ Forall (fun w => wordWidth w = bitsPerRow (getConfig env))
         (getPacket db')
    /\ Z.of_nat (length (getPacket db'))
       = Z.min (totalBits pre / bitsPerRow (getConfig env)) maxPacketSize.
Proof.
  intros Ho Hblocks Hvalid Hbad.
  set (o := bitsPerRow (getConfig env)) in *.
  destruct (populateBlocks_layout o Ho pre locals0 initialDB [])
    as (st1 & db1 & Hpre & Hlast & Hinv).
  { exact Hvalid. }
  { left. apply laidOut_initial. exact Ho. }
  cbn [lastByte locals0] in Hlast. replace (-1 + 1) with 0 in Hlast by lia.
  fold (totalBits pre) in Hlast.
  assert (Hb : exists e, populateBlock o b st1 db1 = Throw e db1).
  { unfold populateBlock.
    destruct (invalidRange (start b) (end_ b)) eqn:Hrange.
    - eexists. reflexivity.
    - destruct Hbad as [Habs | Hne]; [discriminate |].
      destruct (Z.eqb_spec (start b) (lastByte st1 + 1)); [lia |].
      eexists. reflexivity. }
  destruct Hb as [e Hb]. exists e, db1.
  split; [exact (populate_throws_at env ast pre b post initialDB st1 db1 e
                   Hblocks Hpre Hb) |].
  set (T := totalBits pre) in *.
  destruct Hinv as [Hlaid | Htrunc].
  - destruct Hlaid as (Hlen & Hrows & Hchain & Hlt & [Hceil _] & _).
    pose proof (chain_length _ _ _ Hchain) as Hge.
    split; [eapply rowsFrom_width; exact Hrows |].
    assert (Hdiv : T / o = row st1 - 1) by (apply div_between; lia).
    rewrite Hdiv. lia.
  - destruct Htrunc as (Hlen & Hrows & _ & Hpast).
    split; [eapply rowsFrom_width; exact Hrows |].
    assert (Hbig : maxPacketSize <= T / o)
      by (apply Z.div_le_lower_bound; lia).
    lia.
Qed.

Lemma populate_error_keeps_full_rows_witness :
  exists e db',
    populate envEight
      (diagram [field 0 9 "A"; field 10 11 "B"; field 14 15 "C"]) initialDB
    = Throw e db'
    /\ Forall (fun w => wordWidth w = 8) (getPacket db')
    /\ Z.of_nat (length (getPacket db')) = 1.
Proof.
  apply (populate_error_keeps_full_rows envEight
           (diagram [field 0 9 "A"; field 10 11 "B"; field 14 15 "C"])
           [field 0 9 "A"; field 10 11 "B"] (field 14 15 "C") []).
  - reflexivity.
  - reflexivity.
  - reflexivity.
  - right. cbn. discriminate.
Defined.

(** ** Every stored sub-block is drawn *)

Lemma drawBlock_one_rect_one_label cfg y b :
  length (rects (drawBlock cfg y b)) = 1%nat
  /\ labelTexts (drawBlock cfg y b) = [blabel b].
Proof.
  rewrite drawBlock_rects. split; [reflexivity |].
  unfold drawBlock, labelTexts.
  destruct (showBits cfg); cbn [negb];
    [destruct (bend b =? bstart b) |]; reflexivity.
Qed.

Lemma drawWord_one_rect_per_block w r cfg :
  length (rects (drawWord w r cfg)) = length w
  /\ labelTexts (drawWord w r cfg) = map blabel w.
Proof.
  unfold drawWord.
  set (y := r * (rowHeight cfg + paddingY cfg) + paddingY cfg).
  induction w as [| b w [IHr IHl]]; [split; reflexivity |].
  cbn [flat_map map length]. unfold rects, labelTexts in *.
  rewrite !flat_map_app, length_app.
  fold (rects (drawBlock cfg y b)). fold (labelTexts (drawBlock cfg y b)).
  destruct (drawBlock_one_rect_one_label cfg y b) as [Hr Hl].
  rewrite Hr, Hl, IHr, IHl. split; reflexivity.
Qed.

(** X16: [draw] renders the store as it is, whatever it holds and whatever
    the config: one group per stored word, in order, and in the group of a
    word exactly one rectangle and one label text per sub-block, the labels
    being those of the sub-blocks in order. *)
Theorem draw_renders_every_sub_block env diagramTitle db :
  map (fun g => length (rects g)) (groups (draw env diagramTitle db))
  = map (fun w : Word => length w) (getPacket db)
  /\ map labelTexts (groups (draw env diagramTitle db))
     = map (map blabel) (getPacket db).
Proof.
  unfold draw. cbn [groups].
  generalize 0 as r. generalize (getPacket db) as ws.
  induction ws as [| w ws IH]; intros r; [split; reflexivity |].
  cbn [drawWords map].
  destruct (drawWord_one_rect_per_block w r (getConfig env)) as [Hr Hl].
  destruct (IH (r + 1)) as [IHr IHl].
  rewrite Hr, Hl, IHr, IHl. split; reflexivity.
Qed.

(** ** A store that is already full *)

Lemma populateBlocks_full_store o bs : forall st db,
  maxPacketSize <= Z.of_nat (length (getPacket db)) ->
  outcomeSat (populateBlocks o bs st db)
    (fun st' db' => db' = db /\ word st' = word st)
    (fun _ db' => db' = db).
Proof.
  induction bs as [| b bs IH]; intros st db Hfull.
  - cbn. auto.
  - cbn [populateBlocks]. unfold bind.
    assert (Hb : populateBlock o b st db
                 = Return {| lastByte := endOrStart (start b) (end_ b);
                             word := word st; row := row st |} db
                 \/ exists e, populateBlock o b st db = Throw e db).
    { unfold populateBlock.
      destruct (invalidRange (start b) (end_ b)); [right; eexists; reflexivity |].
      destruct (negb (start b =? lastByte st + 1));
        [right; eexists; reflexivity |].
      left. rewrite fitLoop_exit; [reflexivity |].
      unfold loopGuard. apply andb_false_iff. right. apply Z.ltb_ge. lia. }
    destruct Hb as [Hb | [e Hb]]; rewrite Hb.
    + specialize (IH {| lastByte := endOrStart (start b) (end_ b);
                        word := word st; row := row st |} db Hfull).
      destruct (populateBlocks o bs _ db); cbn in *; auto.
    + cbn. reflexivity.
Qed.

(** X17: on a store that already holds [maxPacketSize] words or more,
    [populate] stores nothing, whatever the input: however it ends the store
    is as it was, and a valid input returns without any error. *)
Theorem populate_full_store env ast db :
  maxPacketSize <= Z.of_nat (length (getPacket db)) ->
  (forall db', finalDB (populate env ast db) = Some db' -> db' = db)
  /\ (validInput (blocks ast) = true -> populate env ast db = Return tt db).
Proof.
  intros Hfull.
  pose proof (populateBlocks_full_store (bitsPerRow (getConfig env))
                (blocks ast) locals0 db Hfull) as H.
  split.
  - intros db' Hfinal. unfold populate, bind in Hfinal.
    destruct (populateBlocks _ (blocks ast) locals0 db) as [st d | e d |];
      cbn in H; [| | contradiction].
    + destruct H as [-> Hnil]. cbn [word locals0] in Hnil.
      rewrite Hnil, pushWord_nil in Hfinal.
      inversion Hfinal. reflexivity.
    + subst d. inversion Hfinal. reflexivity.
  - intros Hvalid.
    destruct (populateBlocks_valid_prefix (bitsPerRow (getConfig env))
                (blocks ast) locals0 db Hvalid) as (st & d & Hrun & _).
    unfold populate, bind. rewrite Hrun in *. cbn in H.
    destruct H as [-> Hnil]. cbn [word locals0] in Hnil.
    rewrite Hnil. apply pushWord_nil.
Qed.

Lemma populate_full_store_witness :
  populate envEight (diagram tenBits) fullStore = Return tt fullStore.
Proof.
  destruct (populate_full_store envEight (diagram tenBits) fullStore)
    as [_ H].
  - vm_compute. discriminate.
  - apply H. reflexivity.
Defined.
